(** * Moodrift mini-games: a shallow embedding and its verified properties

    The development follows [src/components/MiniGames.tsx] (the three
    mini-games [ClickerGame], [CatcherGame], [MemoryGame]) and the
    config-generation service [generateGameForMood].

    Conventions of the embedding.
    - JavaScript numbers that hold coordinates, radii, speeds and time stamps
      are rationals ([Q]): the arithmetic of the source is read exactly (no
      rounding).  Counters that only ever receive integer updates (score,
      lives, remaining seconds, moves, matches) are integers ([Z]).
    - [Math.random()] is an input of the environment: every frame carries the
      draws it may consume, in the order in which the source consumes them.
    - A React component instance is a record of its [useRef] object, its
      [useState] cells, the locals of its effect closure, its pending timers
      and a log [calls] of the invocations of the [onGameOver] prop, oldest
      first.  The [config] prop is a field of that record too, so that a write
      to it would be visible.
    - Browser events (animation frames, pointer events, timers) are the
      constructors of an [Event] type; a session is a list of events run from
      the mounted state.
    - React runs updaters and effects once, and applies the state updates
      queued by one handler, timer callback or effect pass together before
      it renders again (automatic batching). *)

From Stdlib Require Import QArith Qminmax Qround Lqa.
From Stdlib Require Import Reals Qreals.
From stdpp Require Import base list strings.

Local Open Scope Z_scope.

(** ** Numbers *)

(** [a < b] on JavaScript numbers. *)
Definition Qltb (a b : Q) : bool := negb (Qle_bool b a).

(** [array[Math.floor(a)]]; [None] is JavaScript's [undefined] (an index
    outside the array). *)
Definition at_floor {A : Type} (l : list A) (a : Q) : option A :=
  if Qfloor a <? 0 then None else l !! Z.to_nat (Qfloor a).

(** ** The configuration contract ([types.ts]) *)

Inductive GameType := clicker | catcher | memory.

Record ThemeConfig := mkTheme {
  primary : string;
  secondary : string;
  background : string;
  text : string;
  accent : string
}.

Record GameParameters := mkParameters {
  speed : Q;
  difficulty : Q
}.

Record GameConfig := mkConfig {
  gameType : GameType;
  title : string;
  description : string;
  instructions : string;
  theme : ThemeConfig;
  assets : list string;
  parameters : GameParameters
}.

(** [config.assets[Math.floor(Math.random() * config.assets.length)]] *)
Definition pickAsset (config : GameConfig) (u : Q) : option string :=
  at_floor (assets config)
           (u * inject_Z (Z.of_nat (length (assets config)))).

(** ** Clicker *)

Module Clicker.

Record Entity := mkEntity {
  ent_x : Q;
  ent_y : Q;
  ent_r : Q;
  ent_asset : option string;
  ent_life : Q;
  ent_maxLife : Q;
  ent_id : nat
}.

(** The four [Math.random()] draws of one spawn, in source order. *)
Record Draws := mkDraws {
  u_radius : Q;
  u_x : Q;
  u_y : Q;
  u_asset : Q
}.

Record State := mkState {
  config : GameConfig;
  (* the canvas element *)
  width : Q;
  height : Q;
  (* gameStateRef.current *)
  entities : list Entity;
  lastSpawn : Q;
  isRunning : bool;
  score : Z;
  (* useState cells *)
  scoreShown : Z;
  timeLeft : Z;
  (* locals of the effect closure *)
  spawnId : nat;
  timerInterval : bool;
  (* invocations of the onGameOver prop *)
  calls : list Z
}.

Definition set_entities (es : list Entity) (s : State) : State :=
  mkState (config s) (width s) (height s) es (lastSpawn s) (isRunning s)
          (score s) (scoreShown s) (timeLeft s) (spawnId s) (timerInterval s)
          (calls s).

Definition set_canvas (w h : Q) (s : State) : State :=
  mkState (config s) w h (entities s) (lastSpawn s) (isRunning s)
          (score s) (scoreShown s) (timeLeft s) (spawnId s) (timerInterval s)
          (calls s).

Definition initial (cfg : GameConfig) : State :=
  mkState cfg 0%Q 0%Q [] 0%Q true 0 0 30 0%nat true [].

(** [handleResize]: the canvas takes the window's inner size, less the
    header. *)
Definition handleResize (innerWidth innerHeight : Q) (s : State) : State :=
  set_canvas innerWidth (innerHeight - 100)%Q s.

Definition speedMultiplier (cfg : GameConfig) : Q :=
  (speed (parameters cfg) / 5)%Q.

Definition spawnRate (cfg : GameConfig) : Q :=
  Qmax 200 (1000 - speed (parameters cfg) * 80)%Q.

(** The spawn block of [render]. *)
Definition spawn (time : Q) (d : Draws) (s : State) : State :=
  if Qltb (spawnRate (config s)) (time - lastSpawn s)%Q then
    let radius := (u_radius d * 30 + 30)%Q in
    let ent :=
      mkEntity (u_x d * (width s - radius * 2) + radius)%Q
               (u_y d * (height s - radius * 2) + radius)%Q
               0%Q
               (pickAsset (config s) (u_asset d))
               100%Q 100%Q (spawnId s) in
    mkState (config s) (width s) (height s) (entities s ++ [ent]) time
            (isRunning s) (score s) (scoreShown s) (timeLeft s)
            (S (spawnId s)) (timerInterval s) (calls s)
  else s.

(** [Array.prototype.forEach] over [gameStateRef.current.entities]: the
    length is read once, the index runs from [0] to that length, and an
    index that is no longer in the array (after a [splice]) is passed
    over.  [n] counts the iterations that are left, [k] is the index. *)
Fixpoint forEach (f : nat -> Entity -> State -> State) (n k : nat) (s : State)
  : State :=
  match n with
  | O => s
  | S n' =>
      match entities s !! k with
      | Some ent => forEach f n' (S k) (f k ent s)
      | None => forEach f n' (S k) s
      end
  end.

Definition forEachEntity (f : nat -> Entity -> State -> State) (s : State)
  : State :=
  forEach f (length (entities s)) 0%nat s.

(** The callback of the update loop of [render]: grow, decay, (draw,)
    remove when dead. *)
Definition updateEntity (index : nat) (ent : Entity) (s : State) : State :=
  let m := speedMultiplier (config s) in
  let r' := if Qltb (ent_r ent) 40 then (ent_r ent + 2 * m)%Q else ent_r ent in
  let life' := (ent_life ent - 1 * m)%Q in
  let ent' :=
    mkEntity (ent_x ent) (ent_y ent) r' (ent_asset ent) life'
             (ent_maxLife ent) (ent_id ent) in
  let s1 := set_entities (<[index := ent']> (entities s)) s in
  if Qle_bool life' 0 then set_entities (delete index (entities s1)) s1
  else s1.

Definition render (time : Q) (d : Draws) (s : State) : State :=
  if negb (isRunning s) then s
  else forEachEntity updateEntity (spawn time d s).

(** [dist < ent.r] with [dist = Math.sqrt((x - ent.x) ** 2 + (y - ent.y) ** 2)]:
    a square root is below [r] exactly when [r] is positive and the
    radicand is below [r * r] (see [hit_is_distance_test]). *)
Definition hit (px py : Q) (ent : Entity) : bool :=
  Qltb 0 (ent_r ent)
  && Qltb ((px - ent_x ent) * (px - ent_x ent)
           + (py - ent_y ent) * (py - ent_y ent))%Q
          (ent_r ent * ent_r ent)%Q.

(** The callback of the loop of [handleClick]. *)
Definition hitEntity (px py : Q) (index : nat) (ent : Entity) (s : State)
  : State :=
  if hit px py ent then
    mkState (config s) (width s) (height s) (delete index (entities s))
            (lastSpawn s) (isRunning s) (score s + 10) (score s + 10)
            (timeLeft s) (spawnId s) (timerInterval s) (calls s)
  else s.

(** [handleClick], with the pointer already in canvas coordinates
    ([clientX - rect.left], [clientY - rect.top]). *)
Definition handleClick (px py : Q) (s : State) : State :=
  if negb (isRunning s) then s
  else forEachEntity (hitEntity px py) s.

(** One firing of the one-second interval: the updater passed to
    [setTimeLeft], run once per firing. *)
Definition tick (s : State) : State :=
  if negb (timerInterval s) then s
  else if timeLeft s <=? 1 then
    mkState (config s) (width s) (height s) (entities s) (lastSpawn s)
            false (score s) (scoreShown s) 0 (spawnId s) false
            (calls s ++ [score s])
  else
    mkState (config s) (width s) (height s) (entities s) (lastSpawn s)
            (isRunning s) (score s) (scoreShown s) (timeLeft s - 1)
            (spawnId s) (timerInterval s) (calls s).

Inductive Event :=
| Frame (time : Q) (d : Draws)
| Click (px py : Q)
| Tick
| Resize (innerWidth innerHeight : Q).

Definition step (s : State) (e : Event) : State :=
  match e with
  | Frame time d => render time d s
  | Click px py => handleClick px py s
  | Tick => tick s
  | Resize w h => handleResize w h s
  end.

(** The effect on mount: size the canvas, then [render(0)]. *)
Definition mount (cfg : GameConfig) (innerWidth innerHeight : Q) (d : Draws)
  : State :=
  render 0 d (handleResize innerWidth innerHeight (initial cfg)).

Definition run (s : State) (evs : list Event) : State :=
  foldl step s evs.

(** *** Predicates on Clicker states *)

(** What one tap may do to the state: it removes some entities, all of
    them hit, keeps the others in their order, and scores ten for each
    one removed. *)
Definition Tapped (px py : Q) (s s' : State) : Prop :=
  exists removed,
    entities s ≡ₚ entities s' ++ removed
    /\ entities s' `sublist_of` entities s
    /\ Forall (fun e => hit px py e = true) removed
    /\ score s' = score s + 10 * Z.of_nat (length removed)
    /\ scoreShown s' = (if removed is [] then scoreShown s else score s')
    /\ mkState (config s) (width s) (height s) (entities s') (lastSpawn s)
               (isRunning s) (score s') (scoreShown s') (timeLeft s)
               (spawnId s) (timerInterval s) (calls s) = s'.

(** What a frame leaves alone. *)
Definition frame_preserved (s s' : State) : Prop :=
  config s' = config s /\ isRunning s' = isRunning s
  /\ score s' = score s /\ scoreShown s' = scoreShown s
  /\ timeLeft s' = timeLeft s /\ timerInterval s' = timerInterval s
  /\ calls s' = calls s.

(** Every entity of the list still has life left. *)
Definition alive (s : State) : Prop :=
  Forall (fun e => (0 < ent_life e)%Q) (entities s).

(** The session is either running, with its interval armed and no call
    made, or over, with the interval cleared and exactly one call, which
    reported the score. *)
Definition session_ok (s : State) : Prop :=
  0 <= score s
  /\ ((isRunning s = true /\ timerInterval s = true /\ calls s = [])
      \/ (isRunning s = false /\ timerInterval s = false
          /\ calls s = [score s])).

End Clicker.

(** ** Catcher *)

Module Catcher.

Record Item := mkItem {
  item_x : Q;
  item_y : Q;
  item_speed : Q;
  item_asset : option string;
  item_id : nat
}.

(** The three [Math.random()] draws of one spawn, in source order. *)
Record Draws := mkDraws {
  u_x : Q;
  u_speed : Q;
  u_asset : Q
}.

Record State := mkState {
  config : GameConfig;
  (* the canvas element *)
  width : Q;
  height : Q;
  (* gameStateRef.current *)
  playerX : Q;
  items : list Item;
  score : Z;
  lives : Z;
  isRunning : bool;
  lastSpawn : Q;
  (* useState cells *)
  scoreShown : Z;
  livesShown : Z;
  (* local of the effect closure *)
  spawnId : nat;
  (* invocations of the onGameOver prop *)
  calls : list Z
}.

Definition set_items (l : list Item) (s : State) : State :=
  mkState (config s) (width s) (height s) (playerX s) l (score s) (lives s)
          (isRunning s) (lastSpawn s) (scoreShown s) (livesShown s)
          (spawnId s) (calls s).

Definition set_playerX (px : Q) (s : State) : State :=
  mkState (config s) (width s) (height s) px (items s) (score s) (lives s)
          (isRunning s) (lastSpawn s) (scoreShown s) (livesShown s)
          (spawnId s) (calls s).

Definition initial (cfg : GameConfig) : State :=
  mkState cfg 0%Q 0%Q 0%Q [] 0 5 true 0%Q 0 5 0%nat [].

Definition handleResize (innerWidth innerHeight : Q) (s : State) : State :=
  mkState (config s) innerWidth (innerHeight - 100)%Q (innerWidth / 2)%Q
          (items s) (score s) (lives s) (isRunning s) (lastSpawn s)
          (scoreShown s) (livesShown s) (spawnId s) (calls s).

Definition speedBase (cfg : GameConfig) : Q := speed (parameters cfg).

Definition playerW : Q := 100.
Definition playerH : Q := 20.
Definition playerY (s : State) : Q := (height s - 50)%Q.

Definition spawnRate (cfg : GameConfig) : Q :=
  Qmax 300 (1500 - speedBase cfg * 100)%Q.

(** The two clamping statements of [render]. *)
Definition constrain (s : State) : State :=
  let s1 :=
    if Qltb (playerX s) (playerW / 2) then set_playerX (playerW / 2)%Q s
    else s in
  if Qltb (width s1 - playerW / 2) (playerX s1)
  then set_playerX (width s1 - playerW / 2)%Q s1
  else s1.

Definition spawn (time : Q) (d : Draws) (s : State) : State :=
  if Qltb (spawnRate (config s)) (time - lastSpawn s)%Q then
    let item :=
      mkItem (u_x d * (width s - 40) + 20)%Q
             (-50)%Q
             (u_speed d * 2 + speedBase (config s) * (1 # 2))%Q
             (pickAsset (config s) (u_asset d))
             (spawnId s) in
    mkState (config s) (width s) (height s) (playerX s) (items s ++ [item])
            (score s) (lives s) (isRunning s) time (scoreShown s)
            (livesShown s) (S (spawnId s)) (calls s)
  else s.

(** The collision test of the loop body. *)
Definition caught (s : State) (item : Item) : bool :=
  Qltb (playerY s) (item_y item)
  && Qltb (item_y item) (playerY s + playerH + 30)%Q
  && Qltb (playerX s - playerW / 2)%Q (item_x item)
  && Qltb (item_x item) (playerX s + playerW / 2)%Q.

(** The test for an item that fell off the screen. *)
Definition missed (s : State) (item : Item) : bool :=
  Qltb (height s) (item_y item).

(** [item.y += item.speed] *)
Definition fall (item : Item) : Item :=
  mkItem (item_x item) (item_y item + item_speed item)%Q
         (item_speed item) (item_asset item) (item_id item).

(** The body of the item loop at index [i]. *)
Definition updateItem (i : nat) (s : State) : State :=
  match items s !! i with
  | None => s
  | Some item =>
      let item' := fall item in
      let s1 := set_items (<[i := item']> (items s)) s in
      if caught s1 item' then
        mkState (config s1) (width s1) (height s1) (playerX s1)
                (delete i (items s1)) (score s1 + 1) (lives s1)
                (isRunning s1) (lastSpawn s1) (score s1 + 1) (livesShown s1)
                (spawnId s1) (calls s1)
      else if missed s1 item' then
        let s2 :=
          mkState (config s1) (width s1) (height s1) (playerX s1)
                  (delete i (items s1)) (score s1) (lives s1 - 1)
                  (isRunning s1) (lastSpawn s1) (scoreShown s1)
                  (lives s1 - 1) (spawnId s1) (calls s1) in
        if lives s2 <=? 0 then
          mkState (config s2) (width s2) (height s2) (playerX s2) (items s2)
                  (score s2) (lives s2) false (lastSpawn s2) (scoreShown s2)
                  (livesShown s2) (spawnId s2) (calls s2 ++ [score s2])
        else s2
      else s1
  end.

(** [for (let i = items.length - 1; i >= 0; i--)]: called with the length,
    it runs the body at [length - 1], ..., [0]. *)
Fixpoint updateItems (i : nat) (s : State) : State :=
  match i with
  | O => s
  | S i' => updateItems i' (updateItem i' s)
  end.

Definition render (time : Q) (d : Draws) (s : State) : State :=
  if negb (isRunning s) then s
  else
    let s1 := spawn time d (constrain s) in
    updateItems (length (items s1)) s1.

(** [handleMouseMove] and [handleTouchMove], with the pointer already in
    canvas coordinates ([clientX - rect.left]). *)
Definition handleMove (px : Q) (s : State) : State := set_playerX px s.

Inductive Event :=
| Frame (time : Q) (d : Draws)
| MouseMove (px : Q)
| TouchMove (px : Q)
| Resize (innerWidth innerHeight : Q).

Definition step (s : State) (e : Event) : State :=
  match e with
  | Frame time d => render time d s
  | MouseMove px => handleMove px s
  | TouchMove px => handleMove px s
  | Resize w h => handleResize w h s
  end.

(** The effect on mount: size the canvas, then [render(0)]. *)
Definition mount (cfg : GameConfig) (innerWidth innerHeight : Q) (d : Draws)
  : State :=
  render 0 d (handleResize innerWidth innerHeight (initial cfg)).

Definition run (s : State) (evs : list Event) : State :=
  foldl step s evs.

(** *** Predicates on Catcher states *)

(** The score and every reported score are not negative; while lives are
    left the game runs and nothing was reported; once they are exhausted
    the game is stopped and one report was made for each life lost from 1
    downwards. *)
Definition session_ok (s : State) : Prop :=
  0 <= score s
  /\ Forall (fun sc => 0 <= sc) (calls s)
  /\ ((0 < lives s /\ isRunning s = true /\ calls s = [])
      \/ (lives s <= 0 /\ isRunning s = false
          /\ Z.of_nat (length (calls s)) = 1 - lives s)).

End Catcher.

(** ** Memory *)

Module Memory.

Record Card := mkCard {
  card_id : nat;
  content : string;
  isFlipped : bool;
  isMatched : bool
}.

(** *** Arrays of the initialisation effect

    JavaScript arrays are objects.  [slice] and the spread literal allocate
    a new array; [sort] permutes its receiver in place and returns it.  A
    heap of arrays, addressed by position, keeps the difference visible. *)

Definition Heap := list (list string).

Definition read (p : nat) (h : Heap) : list string := default [] (h !! p).

Definition alloc (a : list string) (h : Heap) : nat * Heap :=
  (length h, h ++ [a]).

(** [a.slice(from, to)] *)
Definition slice (p from to : nat) (h : Heap) : nat * Heap :=
  alloc (take (to - from) (drop from (read p h))) h.

(** [[...a, ...b]] *)
Definition spread2 (p q : nat) (h : Heap) : nat * Heap :=
  alloc (read p h ++ read q h) h.

Section Shuffle.

(** [.sort(() => Math.random() - 0.5)]: the order that results from a
    random comparator is left to the engine; [shuffle] is that order. *)
Variable shuffle : list string -> list string.

Definition sort (p : nat) (h : Heap) : nat * Heap :=
  (p, <[p := shuffle (read p h)]> h).

(** The body of the initialisation effect, run on a heap in which
    [config.assets] lives at address [assetsAt]; it returns the deck and
    the heap it leaves. *)
Definition buildDeck (assetsAt : nat) (h : Heap) : list Card * Heap :=
  let '(selection, h1) := slice assetsAt 0 8 h in
  let '(both, h2) := spread2 selection selection h1 in
  let '(sorted, h3) := sort both h2 in
  (imap (fun index item => mkCard index item false false) (read sorted h3),
   h3).

End Shuffle.

(** *** The component *)

Record State := mkState {
  config : GameConfig;
  (* useState cells, as of the last render *)
  cards : list Card;
  flippedIds : list nat;
  matches : Z;
  moves : Z;
  (* the clock, in milliseconds *)
  now : nat;
  (* the pending mismatch timeout: deadline, first, second *)
  flipBack : option (nat * nat * nat);
  (* the pending game-over timeouts: deadline, finalScore *)
  gameOver : list (nat * Z);
  (* invocations of the onGameOver prop *)
  calls : list Z
}.

Definition initial (cfg : GameConfig) : State :=
  mkState cfg [] [] 0 0 0%nat None [] [].

Definition set_flipBack (t : option (nat * nat * nat)) (s : State) : State :=
  mkState (config s) (cards s) (flippedIds s) (matches s) (moves s) (now s)
          t (gameOver s) (calls s).

Definition set_now (t : nat) (s : State) : State :=
  mkState (config s) (cards s) (flippedIds s) (matches s) (moves s) t
          (flipBack s) (gameOver s) (calls s).

(** A queued call of a state setter, with its updater. *)
Inductive Update :=
| SetCards (f : list Card -> list Card)
| SetFlippedIds (f : list nat -> list nat)
| SetMatches (f : Z -> Z)
| SetMoves (f : Z -> Z).

Definition applyUpdate (s : State) (u : Update) : State :=
  match u with
  | SetCards f =>
      mkState (config s) (f (cards s)) (flippedIds s) (matches s) (moves s)
              (now s) (flipBack s) (gameOver s) (calls s)
  | SetFlippedIds f =>
      mkState (config s) (cards s) (f (flippedIds s)) (matches s) (moves s)
              (now s) (flipBack s) (gameOver s) (calls s)
  | SetMatches f =>
      mkState (config s) (cards s) (flippedIds s) (f (matches s)) (moves s)
              (now s) (flipBack s) (gameOver s) (calls s)
  | SetMoves f =>
      mkState (config s) (cards s) (flippedIds s) (matches s) (f (moves s))
              (now s) (flipBack s) (gameOver s) (calls s)
  end.

(** Which effect dependencies differ between two renders.  Every updater of
    the source builds a new array or a different number, so a cell differs
    as soon as its setter was called; [cards.length] is compared by value. *)
Record Deps := mkDeps {
  d_cards : bool;
  d_flippedIds : bool;
  d_matches : bool;
  d_moves : bool;
  d_length : bool
}.

Definition noDeps : Deps := mkDeps false false false false false.
Definition allDeps : Deps := mkDeps true true true true true.

Definition anyDeps (d : Deps) : bool :=
  d_cards d || d_flippedIds d || d_matches d || d_moves d || d_length d.

Definition touch (d : Deps) (u : Update) : Deps :=
  match u with
  | SetCards _ =>
      mkDeps true (d_flippedIds d) (d_matches d) (d_moves d) (d_length d)
  | SetFlippedIds _ =>
      mkDeps (d_cards d) true (d_matches d) (d_moves d) (d_length d)
  | SetMatches _ =>
      mkDeps (d_cards d) (d_flippedIds d) true (d_moves d) (d_length d)
  | SetMoves _ =>
      mkDeps (d_cards d) (d_flippedIds d) (d_matches d) true (d_length d)
  end.

(** The batched updates of one handler or effect pass are applied in the
    order in which they were queued. *)
Definition flush (us : list Update) (s : State) : State * Deps :=
  let s' := foldl applyUpdate s us in
  let d := foldl touch noDeps us in
  (s',
   mkDeps (d_cards d) (d_flippedIds d) (d_matches d) (d_moves d)
          (negb (length (cards s) =? length (cards s'))%nat)).

Definition findCard (i : nat) (cs : list Card) : option Card :=
  List.find (fun c => (card_id c =? i)%nat) cs.

Definition markMatched (first second : nat) (c : Card) : Card :=
  if (card_id c =? first)%nat || (card_id c =? second)%nat
  then mkCard (card_id c) (content c) (isFlipped c) true
  else c.

Definition faceDown (first second : nat) (c : Card) : Card :=
  if (card_id c =? first)%nat || (card_id c =? second)%nat
  then mkCard (card_id c) (content c) false (isMatched c)
  else c.

Definition faceUp (i : nat) (c : Card) : Card :=
  if (card_id c =? i)%nat
  then mkCard (card_id c) (content c) true (isMatched c)
  else c.

(** [card1 && card2 && card1.content === card2.content] *)
Definition sameContent (card1 card2 : option Card) : bool :=
  match card1, card2 with
  | Some c1, Some c2 => String.eqb (content c1) (content c2)
  | _, _ => false
  end.

(** The "Check Match" effect (dependencies [flippedIds], [cards]).  A new
    run is preceded by the cleanup of the previous one, which clears the
    mismatch timeout. *)
Definition checkMatch (s : State) : State * list Update :=
  let s0 := set_flipBack None s in
  match flippedIds s with
  | [first; second] =>
      if sameContent (findCard first (cards s)) (findCard second (cards s))
      then
        (s0,
         [SetMoves (fun m => m + 1);
          SetCards (map (markMatched first second));
          SetMatches (fun m => m + 1);
          SetFlippedIds (fun _ => [])])
      else
        (set_flipBack (Some (now s + 1000, first, second)%nat) s0,
         [SetMoves (fun m => m + 1)])
  | _ => (s0, [])
  end.

Definition finalScore (s : State) : Z := Z.max 0 (1000 - moves s * 20).

(** The "Game Over Check" effect (dependencies [matches], [cards.length],
    [moves], [onGameOver]).  Its timeout has no cleanup. *)
Definition gameOverCheck (s : State) : State :=
  if (0 <? length (cards s))%nat
     && Qeq_bool (inject_Z (matches s))
                 (inject_Z (Z.of_nat (length (cards s))) / 2)
  then
    mkState (config s) (cards s) (flippedIds s) (matches s) (moves s)
            (now s) (flipBack s)
            (gameOver s ++ [((now s + 1000)%nat, finalScore s)]) (calls s)
  else s.

(** The effects of one commit, in declaration order, for the dependencies
    that changed.  Both read the cells of the render just committed; the
    setters they call are queued. *)
Definition effects (d : Deps) (s : State) : State * list Update :=
  let '(s1, us) :=
    if d_flippedIds d || d_cards d then checkMatch s else (s, []) in
  let s2 :=
    if d_matches d || d_length d || d_moves d then gameOverCheck s1
    else s1 in
  (s2, us).

(** Render, run the effects, apply what they queued, and render again
    until no cell changes. *)
Fixpoint commit (fuel : nat) (d : Deps) (s : State) : State :=
  match fuel with
  | O => s
  | S fuel' =>
      if anyDeps d then
        let '(s1, us) := effects d s in
        let '(s2, d') := flush us s1 in
        commit fuel' d' s2
      else s
  end.

(** No update of the source cascades further than three rendering passes
    (see [commit_enough]). *)
Definition renderPasses : nat := 3.

Definition dispatch (us : list Update) (s : State) : State :=
  let '(s1, d) := flush us s in
  commit renderPasses d s1.

(** [handleCardClick] *)
Definition handleCardClick (i : nat) (s : State) : list Update :=
  if (2 <=? length (flippedIds s))%nat then []
  else if existsb (Nat.eqb i) (flippedIds s) then []
  else
    let flip :=
      [SetCards (map (faceUp i)); SetFlippedIds (fun prev => prev ++ [i])] in
    match findCard i (cards s) with
    | Some card => if isMatched card then [] else flip
    | None => flip
    end.

(** The callback of the mismatch timeout. *)
Definition flipBackCallback (first second : nat) : list Update :=
  [SetCards (map (faceDown first second)); SetFlippedIds (fun _ => [])].

(** The mismatch timeout fires if its deadline is not after [t]. *)
Definition fireFlipBack (t : nat) (s : State) : State :=
  match flipBack s with
  | Some (deadline, first, second) =>
      if (deadline <=? t)%nat then
        dispatch (flipBackCallback first second)
                 (set_now deadline (set_flipBack None s))
      else s
  | None => s
  end.

(** The game-over timeouts whose deadline is not after [t] fire, oldest
    first: each calls [onGameOver(finalScore)]. *)
Definition fireGameOver (t : nat) (s : State) : State :=
  mkState (config s) (cards s) (flippedIds s) (matches s) (moves s) (now s)
          (flipBack s)
          (filter (fun p => ¬ (p.1 ≤ t)%nat) (gameOver s))
          (calls s ++ (filter (fun p => (p.1 ≤ t)%nat) (gameOver s)).*2).

(** [dt] milliseconds pass: the timeouts that fall due fire (at their
    deadline, the mismatch timeout first; the two kinds of timeout touch
    different parts of the state), and the clock advances. *)
Definition wait (dt : nat) (s : State) : State :=
  let t := (now s + dt)%nat in
  set_now t (fireGameOver t (fireFlipBack t s)).

Inductive Event :=
| Click (i : nat)
| Wait (dt : nat).

(** There is one button per card of the rendered deck, and its handler is
    [handleCardClick(card.id)]. *)
Definition hasButton (i : nat) (s : State) : bool :=
  existsb (fun c => (card_id c =? i)%nat) (cards s).

Definition step (s : State) (e : Event) : State :=
  match e with
  | Click i => if hasButton i s then dispatch (handleCardClick i s) s else s
  | Wait dt => wait dt s
  end.

(** Mount: the first render shows the [initial] cells, then all three
    effects run; the initialisation effect queues [setCards(deck)]. *)
Definition mount (shuffle : list string -> list string) (cfg : GameConfig)
  : State :=
  let '(deck, h) := buildDeck shuffle 0 [assets cfg] in
  let cfg' :=
    mkConfig (gameType cfg) (title cfg) (description cfg) (instructions cfg)
             (theme cfg) (read 0 h) (parameters cfg) in
  let '(s1, us) := effects allDeps (initial cfg') in
  dispatch (SetCards (fun _ => deck) :: us) s1.

Definition run (s : State) (evs : list Event) : State :=
  foldl step s evs.

(** *** Predicates on Memory states *)

(** The condition of the game-over check, on integers. *)
Definition won (s : State) : bool :=
  (0 <? length (cards s))%nat
  && (2 * matches s =? Z.of_nat (length (cards s))).

(** The number of matched cards. *)
Definition matchedCards (s : State) : nat :=
  length (filter (fun c => isMatched c = true) (cards s)).

(** The click is taken: the card has a button, is not among the turned
    ones and is not matched, and fewer than two cards are turned. *)
Definition accepted (i : nat) (s : State) : bool :=
  hasButton i s
  && match handleCardClick i s with [] => false | _ => true end.

(** The event turns a second card face-up, so that two cards are
    evaluated. *)
Definition evaluates (s : State) (e : Event) : bool :=
  match e with
  | Click i => accepted i s && (length (flippedIds s) =? 1)%nat
  | Wait _ => false
  end.

(** The number of two-card evaluations of a session. *)
Fixpoint evaluations (s : State) (evs : list Event) : Z :=
  match evs with
  | [] => 0
  | e :: evs' =>
      (if evaluates s e then 1 else 0) + evaluations (step s e) evs'
  end.

(** The states that a taken click leads to. *)
Definition turnedFirst (i : nat) (s : State) : State :=
  mkState (config s) (map (faceUp i) (cards s)) [i] (matches s) (moves s)
          (now s) None (gameOver s) (calls s).

Definition matchedPair (a i : nat) (s : State) : State :=
  gameOverCheck
    (mkState (config s)
             (map (markMatched a i) (map (faceUp i) (cards s))) []
             (matches s + 1) (moves s + 1) (now s) None (gameOver s)
             (calls s)).

Definition mismatchedPair (a i : nat) (s : State) : State :=
  gameOverCheck
    (mkState (config s) (map (faceUp i) (cards s)) [a; i] (matches s)
             (moves s + 1) (now s) (Some (now s + 1000, a, i)%nat)
             (gameOver s) (calls s)).

(** The state that the mismatch timeout leads to. *)
Definition turnedBack (deadline a b : nat) (s : State) : State :=
  mkState (config s) (map (faceDown a b) (cards s)) [] (matches s)
          (moves s) deadline None (gameOver s) (calls s).

(** The invariant of a session. *)
Record session_ok (s : State) : Prop := {
  ok_ids : map card_id (cards s) = seq 0 (length (cards s));
  ok_matches : Z.of_nat (matchedCards s) = 2 * matches s;
  ok_moves : 0 <= matches s <= moves s;
  ok_faces :
    Forall (fun c => isFlipped c
                     = isMatched c || existsb (Nat.eqb (card_id c)) (flippedIds s))
           (cards s);
  ok_flipped :
    Forall (fun i => exists c, findCard i (cards s) = Some c
                               /\ isMatched c = false)
           (flippedIds s);
  ok_distinct : NoDup (flippedIds s);
  ok_pending :
    match flippedIds s with
    | [] | [_] => flipBack s = None
    | [a; b] =>
        exists deadline,
          flipBack s = Some (deadline, a, b)
          /\ (now s < deadline <= now s + 1000)%nat
          /\ sameContent (findCard a (cards s)) (findCard b (cards s))
             = false
    | _ => False
    end;
  ok_over :
    if won s then
      flippedIds s = []
      /\ ((exists deadline,
              gameOver s = [(deadline, finalScore s)]
              /\ (now s < deadline <= now s + 1000)%nat
              /\ calls s = [])
          \/ (gameOver s = [] /\ calls s = [finalScore s]))
    else gameOver s = [] /\ calls s = []
}.

End Memory.

(** ** The config-generation service ([generateGameForMood]) *)

Module Service.

(** A computation that may throw (for a promise: reject). *)
Inductive Result (A : Type) :=
| Return (a : A)
| Throw (error : string).
Arguments Return {A} a.
Arguments Throw {A} error.

Definition bind {A B : Type} (m : Result A) (k : A -> Result B) : Result B :=
  match m with
  | Return a => k a
  | Throw e => Throw e
  end.

(** [try { body } catch (error) { handler }] *)
Definition tryCatch {A : Type} (body : Result A) (handler : string -> Result A)
  : Result A :=
  match body with
  | Return a => Return a
  | Throw e => handler e
  end.

Notation "x <- m ;; k" := (bind m (fun x => k))
  (at level 100, m at next level, right associativity).

Record Request := mkRequest {
  model : string;
  contents : string;
  responseMimeType : string;
  temperature : Q
}.

(** [response.text] is a string or [undefined]. *)
Record Response := mkResponse {
  response_text : option string
}.

(** A value as [JSON.parse] returns them. *)
#[warnings="-register-all"] Inductive JSON :=
| JNull
| JBool (b : bool)
| JNumber (n : Q)
| JString (s : string)
| JArray (items : list JSON)
| JObject (members : list (string * JSON)).

(** What [JSON.parse(text) as GameConfig] evaluates to.  The cast exists
    at compile time only and nothing checks the value at run time: it is
    an object of the shape of [GameConfig] (with one of the three game
    types), or any other value ([null], a number, an object without the
    fields or with another [gameType], ...). *)
Inductive Value :=
| Conforming (config : GameConfig)
| Other (v : JSON).

Definition null : Value := Other JNull.

(** [!value] *)
Definition falsyValue (value : Value) : bool :=
  match value with
  | Conforming _ => false
  | Other JNull => true
  | Other (JBool b) => negb b
  | Other (JNumber n) => Qeq_bool n 0
  | Other (JString s) => String.eqb s ""
  | Other (JArray _) => false
  | Other (JObject _) => false
  end.

Definition modelId : string := "gemini-2.5-flash".

Definition quote : string := String (Ascii.ascii_of_nat 34) EmptyString.
Definition newline : string := String (Ascii.ascii_of_nat 10) EmptyString.

Definition prompt (mood : string) : string :=
  String.concat newline
    [ "";
      "    The user is feeling: " +:+ quote +:+ mood +:+ quote +:+ ".";
      "    Create a browser-based mini-game configuration to help them regulate this emotion.";
      "";
      "    Strategies:";
      "    - Anger/Frustration: High energy, fast-paced 'clicker' to release tension. Use bold colors.";
      "    - Sadness/Depression: Gentle, slow-paced 'memory' or 'catcher' to uplift. Use soothing, warm, or bright colors.";
      "    - Boredom: Engaging, slightly challenging 'catcher' or 'memory' with interesting/weird assets.";
      "    - Happy/Energetic: Vibrant 'catcher' or 'clicker' to celebrate.";
      "    - Anxiety: Very slow, rhythmic 'catcher' or 'memory' to ground the user.";
      "";
      "    Generate the game config JSON including color palette, game title, and game assets (emojis/words).";
      "  " ].

Definition request (mood : string) : Request :=
  mkRequest modelId (prompt mood) "application/json" (7 # 10).

(** The configuration returned by the [catch] block. *)
Definition fallback : GameConfig :=
  mkConfig clicker
           "Mood Popper"
           "Pop the bubbles to clear your mind."
           "Click the floating circles!"
           (mkTheme "#3B82F6" "#60A5FA" "#EFF6FF" "#1E3A8A" "#2563EB")
           ["‚ú®"; "üíß"; "‚òÅÔ∏è"; "üíô"; "‚≠ê"]
           (mkParameters 5 5).

Section Environment.

(** [await ai.models.generateContent(request)]: the call rejects or
    resolves with a response (the response schema travels with the
    request and constrains only the remote side). *)
Variable generateContent : Request -> Result Response.

(** [JSON.parse(text) as GameConfig]: a syntax error is thrown, or the
    text is parsed to a value, whatever its shape. *)
Variable JSON_parse : string -> Result Value.

(** [!text] *)
Definition falsy (text : option string) : bool :=
  match text with
  | None => true
  | Some t => String.eqb t ""
  end.

Definition generateGameForMood (mood : string) : Result Value :=
  tryCatch
    (response <- generateContent (request mood) ;;
     let text := response_text response in
     if falsy text then Throw "No response from Gemini"
     else
       config <- JSON_parse (default "" text) ;;
       Return config)
    (fun error => Return (Conforming fallback)).

(** The failures of the call: it rejects, its text is missing or empty,
    or its text does not parse. *)
Inductive Failure (mood : string) : Prop :=
| call_rejected error :
    generateContent (request mood) = Throw error -> Failure mood
| no_text response :
    generateContent (request mood) = Return response ->
    falsy (response_text response) = true -> Failure mood
| unparseable response text error :
    generateContent (request mood) = Return response ->
    response_text response = Some text ->
    JSON_parse text = Throw error -> Failure mood.

End Environment.

End Service.

(** ** The orchestrator ([App.tsx]) *)

Module App.

Inductive AppState := MOOD_SELECTION | GENERATING | PLAYING | GAME_OVER.

Record State := mkState {
  appState : AppState;
  currentMood : string;
  customMood : string;
  (* [GameConfig | null] by its type; at run time the value that
     [generateGameForMood] resolved with, whatever it is *)
  gameConfig : Service.Value;
  lastScore : Z
}.

Definition initial : State := mkState MOOD_SELECTION "" "" Service.null 0.

(** [handleMoodSelect], up to its [await]. *)
Definition handleMoodSelect_begin (mood : string) (s : State) : State :=
  mkState GENERATING mood (customMood s) (gameConfig s) (lastScore s).

(** [handleMoodSelect], from its [await] on: the promise of
    [generateGameForMood] has settled.  If it rejected, the rest of the
    function is not run. *)
Definition handleMoodSelect_resume (r : Service.Result Service.Value)
    (s : State) : State :=
  match r with
  | Service.Return config =>
      mkState PLAYING (currentMood s) (customMood s) config (lastScore s)
  | Service.Throw _ => s
  end.

(** [handleMoodSelect] when nothing happens between the call and its
    answer (the loading screen has no controls). *)
Definition handleMoodSelect
    (generateContent : Service.Request -> Service.Result Service.Response)
    (JSON_parse : string -> Service.Result Service.Value)
    (mood : string) (s : State) : State :=
  handleMoodSelect_resume
    (Service.generateGameForMood generateContent JSON_parse mood)
    (handleMoodSelect_begin mood s).

Definition handleGameOver (score : Z) (s : State) : State :=
  mkState GAME_OVER (currentMood s) (customMood s) (gameConfig s) score.

Definition resetApp (s : State) : State :=
  mkState MOOD_SELECTION (currentMood s) "" Service.null (lastScore s).

Definition setCustomMood (value : string) (s : State) : State :=
  mkState (appState s) (currentMood s) value (gameConfig s) (lastScore s).

(** What [renderContent] shows: one of the four screens, the playing
    screen with the mini-game selected by [gameType], or nothing
    ([return null]).  [MalformedView] stands for the markup of the
    playing screen evaluated on a truthy value that is not a
    [GameConfig]: what React makes of it (reading [gameConfig.theme]
    may throw, and no mini-game may match) depends on the value and is
    not modelled further. *)
Inductive View :=
| MoodSelectionView (typed : string)
| GeneratingView (mood : string)
| PlayingView (config : GameConfig) (game : GameType)
| MalformedView (v : Service.JSON)
| NullView
| GameOverView (score : Z).

Definition renderContent (s : State) : View :=
  match appState s with
  | MOOD_SELECTION => MoodSelectionView (customMood s)
  | GENERATING => GeneratingView (currentMood s)
  | PLAYING =>
      if Service.falsyValue (gameConfig s) then NullView
      else
        match gameConfig s with
        | Service.Conforming config => PlayingView config (gameType config)
        | Service.Other v => MalformedView v
        end
  | GAME_OVER => GameOverView (lastScore s)
  end.

(** The calls that reach the component: a mood button, the text field's
    Enter key, Go or Play Again ([SelectMood]); the answer of the service
    ([Generated]); a mini-game's [onGameOver] or the abort button
    ([GameOver]); Choose New Mood ([Reset]); typing ([TypeMood]). *)
Inductive Event :=
| SelectMood (mood : string)
| Generated (r : Service.Result Service.Value)
| GameOver (score : Z)
| Reset
| TypeMood (value : string).

Definition step (s : State) (e : Event) : State :=
  match e with
  | SelectMood mood => handleMoodSelect_begin mood s
  | Generated r => handleMoodSelect_resume r s
  | GameOver score => handleGameOver score s
  | Reset => resetApp s
  | TypeMood value => setCustomMood value s
  end.

Definition run (s : State) (evs : list Event) : State :=
  foldl step s evs.

(** The mood of the last [SelectMood] of a session, if any. *)
Fixpoint lastSelected (evs : list Event) : option string :=
  match evs with
  | [] => None
  | e :: evs' =>
      match lastSelected evs' with
      | Some mood => Some mood
      | None => match e with SelectMood mood => Some mood | _ => None end
      end
  end.

End App.

(** ** Concrete sessions

    The inputs at which the statements below are instantiated. *)

Module Scenario.

Definition palette : ThemeConfig :=
  mkTheme "#111111" "#222222" "#333333" "#444444" "#555555".

(** A configuration with speed 5. *)
Definition config_speed5 : GameConfig :=
  mkConfig clicker "title" "description" "instructions" palette
           ["a"; "b"; "c"] (mkParameters 5 5).

(** *** Clicker: two targets on the same spot, a third one between them
    in the array

    Speed 5 on an 800 by 600 canvas, one frame every 16 ms.  Targets are
    spawned in frames 38, 76 and 114: the first and the third around the
    point (400, 300), the second in the top left corner.  After frame 114
    all three are alive. *)

Definition centre : Clicker.Draws := Clicker.mkDraws 0 (1 # 2) (1 # 2) 0.
Definition corner : Clicker.Draws := Clicker.mkDraws 0 0 0 (1 # 2).

Definition clickerFrame (i : nat) : Clicker.Event :=
  Clicker.Frame (16 * inject_Z (Z.of_nat i))
                (if (i =? 76)%nat then corner else centre).

Definition overlapping : Clicker.State :=
  Clicker.run (Clicker.mount config_speed5 800 700 centre)
              (map clickerFrame (seq 1 114)).

(** Two targets on the same spot, next to each other in the array: the
    targets spawned in frames 38 and 76. *)
Definition adjacent : Clicker.State :=
  Clicker.run (Clicker.mount config_speed5 800 700 centre)
              (map (fun i => Clicker.Frame (16 * inject_Z (Z.of_nat i)) centre)
                   (seq 1 76)).

(** *** Catcher: two items leave the screen in the same frame

    Speed 10 on an 800 by 600 canvas, one frame every 17 ms, the paddle
    left in the middle.  An item is spawned every 30 frames at the left
    edge; all fall 5 pixels per frame, except the one spawned in frame
    180, which falls 6.5 pixels per frame and reaches the bottom together
    with the one spawned in frame 150. *)

Definition config_speed10 : GameConfig :=
  mkConfig catcher "title" "description" "instructions" palette
           ["a"; "b"; "c"] (mkParameters 10 5).

Definition slow : Catcher.Draws := Catcher.mkDraws 0 0 0.
Definition fast : Catcher.Draws := Catcher.mkDraws 0 (3 # 4) 0.

Definition catcherFrame (i : nat) : Catcher.Event :=
  Catcher.Frame (17 * inject_Z (Z.of_nat i))
                (if (i =? 180)%nat then fast else slow).

Definition idle (frames : nat) : Catcher.State :=
  Catcher.run (Catcher.mount config_speed10 800 700 slow)
              (map catcherFrame (seq 1 frames)).

(** *** Memory *)

(** A shuffle: the sort leaves the array in reverse order. *)
Definition backwards (l : list string) : list string := rev l.

(** Twelve distinct assets. *)
Definition config_distinct : GameConfig :=
  mkConfig memory "title" "description" "instructions" palette
           ["a"; "b"; "c"; "d"; "e"; "f"; "g"; "h"; "i"; "j"; "k"; "l"]
           (mkParameters 3 5).

(** Eight assets, the first two of them equal. *)
Definition config_repeated : GameConfig :=
  mkConfig memory "title" "description" "instructions" palette
           ["a"; "a"; "b"; "c"; "d"; "e"; "f"; "g"]
           (mkParameters 3 5).

(** One asset: a deck of two cards. *)
Definition config_single : GameConfig :=
  mkConfig memory "title" "description" "instructions" palette ["a"]
           (mkParameters 3 5).

(** Two assets: a deck of four cards, laid out as b, a, b, a. *)
Definition config_two : GameConfig :=
  mkConfig memory "title" "description" "instructions" palette ["a"; "b"]
           (mkParameters 3 5).

(** No assets at all. *)
Definition config_empty : GameConfig :=
  mkConfig memory "title" "description" "instructions" palette []
           (mkParameters 3 5).

(** *** Service: the network is down *)

Definition offline (_ : Service.Request) : Service.Result Service.Response :=
  Service.Throw "fetch failed".

Definition rejecting (_ : string) : Service.Result Service.Value :=
  Service.Throw "Unexpected token".

(** *** Service: the model answers with the JSON text null *)

Definition answering_null (_ : Service.Request)
  : Service.Result Service.Response :=
  Service.Return (Service.mkResponse (Some "null")).

(** [JSON.parse] on the text of that answer: [JSON.parse("null")] is
    [null].  No other text reaches it in the scenario. *)
Definition parsing_null (text : string) : Service.Result Service.Value :=
  if String.eqb text "null" then Service.Return Service.null
  else Service.Throw "Unexpected token".

End Scenario.

(** ** Measures and invariants of sessions *)

Module ClickerInv.
Import Clicker.

Definition isTick (e : Event) : bool :=
  match e with Tick => true | _ => false end.

(** The number of firings of the one-second interval in a session. *)
Definition ticks (evs : list Event) : nat :=
  length (filter (fun e => isTick e = true) evs).

(** The identifiers of the entities in the array are increasing and were
    all drawn from the counter. *)
Definition ids_fresh (s : State) : Prop :=
  map ent_id (entities s) `sublist_of` seq 0 (spawnId s).

(** The countdown after [k] firings of the interval. *)
Definition counted (k : nat) (s : State) : Prop :=
  if (k <? 30)%nat
  then timeLeft s = 30 - Z.of_nat k /\ timerInterval s = true
  else timeLeft s = 0 /\ timerInterval s = false.

(** The size of every entity is within the growth bound, and its life was
    only ever decreased from 100. *)
Definition bounded (s : State) : Prop :=
  Forall (fun e => (0 <= ent_r e)%Q
                   /\ (ent_r e < 40 + 2 * speedMultiplier (config s))%Q
                   /\ (ent_life e <= 100)%Q
                   /\ ent_maxLife e = 100%Q)
         (entities s).

End ClickerInv.

Module CatcherInv.
Import Catcher.

Definition ids_fresh (s : State) : Prop :=
  map item_id (items s) `sublist_of` seq 0 (spawnId s).

(** Every item spawned so far is on the screen, was caught or was missed. *)
Definition accounted (s : State) : Prop :=
  Z.of_nat (spawnId s) = Z.of_nat (length (items s)) + score s + (5 - lives s).

End CatcherInv.

Module MemoryInv.
Import Memory.

(** A card of a later state against the card at the same position of an
    earlier one: same identifier, same content, still matched if it was. *)
Definition sameCard (c c' : Card) : Prop :=
  card_id c' = card_id c /\ content c' = content c
  /\ (isMatched c = true -> isMatched c' = true).

Definition evolves (cs cs' : list Card) : Prop := Forall2 sameCard cs cs'.

(** The matched cards that show [v]. *)
Definition matchedWith (v : string) (cs : list Card) : nat :=
  length (filter (fun c => isMatched c = true /\ content c = v) cs).

(** Unmount: the cleanup of the check-match effect clears the mismatch
    timeout; the game-over effect has no cleanup. *)
Definition unmount (s : State) : State := set_flipBack None s.

End MemoryInv.

Module AppInv.
Import App.

(** The playing screen has a truthy value to show. *)
Definition configured (s : State) : Prop :=
  appState s = PLAYING -> Service.falsyValue (gameConfig s) = false.

(** The answer of the service, if the event is one, is truthy. *)
Definition truthyAnswer (e : Event) : Prop :=
  match e with
  | Generated (Service.Return value) => Service.falsyValue value = false
  | _ => True
  end.

End AppInv.

(** * Verified properties *)

(** ** Comparisons *)

Lemma Qltb_lt (a b : Q) : Qltb a b = true <-> (a < b)%Q.
Proof.
  unfold Qltb. rewrite negb_true_iff. split.
  - intros H. apply Qnot_le_lt. intros Hle.
    apply Qle_bool_iff in Hle. congruence.
  - intros H. destruct (Qle_bool b a) eqn:E; [|done].
    apply Qle_bool_iff in E. exfalso. eapply Qlt_not_le; eauto.
Qed.

Lemma Qltb_ge (a b : Q) : Qltb a b = false <-> (b <= a)%Q.
Proof.
  unfold Qltb. rewrite negb_false_iff. apply Qle_bool_iff.
Qed.

(** ** Lists *)

Lemma delete_insert_same {A} (l : list A) (i : nat) (a : A) :
  delete i (<[i := a]> l) = delete i l.
Proof.
  by rewrite !delete_take_drop, take_insert_ge, drop_insert_lt by lia.
Qed.


(** ** Spawn cadence *)

Module CadenceFacts.



Lemma clicker_rate (cfg : GameConfig) :
  (Clicker.spawnRate cfg == Qmax 200 (1000 - 80 * speed (parameters cfg)))%Q.
Proof.
  unfold Clicker.spawnRate. apply Q.max_compat; [reflexivity | ring].
Qed.

Lemma catcher_rate (cfg : GameConfig) :
  (Catcher.spawnRate cfg == Qmax 300 (1500 - 100 * speed (parameters cfg)))%Q.
Proof.
  unfold Catcher.spawnRate, Catcher.speedBase.
  apply Q.max_compat; [reflexivity | ring].
Qed.


(** Within the range the clamp of the Clicker is reached only at speed 10,
    and that of the Catcher never. *)
Lemma spawn_intervals_in_range (cfg : GameConfig) :
  (1 <= speed (parameters cfg))%Q ->
  (speed (parameters cfg) <= 10)%Q ->
  (Clicker.spawnRate cfg == 1000 - 80 * speed (parameters cfg))%Q
  /\ (Catcher.spawnRate cfg == 1500 - 100 * speed (parameters cfg))%Q.
Proof.
  intros H1 H10. split.
  - rewrite clicker_rate. apply Q.max_r. lra.
  - rewrite catcher_rate. apply Q.max_r. lra.
Qed.


End CadenceFacts.

(** ** Clicker *)

Module ClickerFacts.
Import Clicker.

(** *** The [forEach] loop *)

Lemma forEach_invariant (P : State -> Prop) f :
  (forall k ent s, P s -> entities s !! k = Some ent -> P (f k ent s)) ->
  forall n k s, P s -> P (forEach f n k s).
Proof.
  intros Hf n. induction n as [|n IH]; intros k s Hs; simpl; [done|].
  destruct (entities s !! k) eqn:E; eauto.
Qed.

(** *** The hit test *)

Lemma sqrt_below (d r : R) :
  (0 <= d)%R -> (sqrt d < r)%R <-> (0 < r)%R /\ (d < r * r)%R.
Proof.
  intros Hd. split.
  - intros Hlt. pose proof (sqrt_pos d) as Hpos.
    assert (Hr : (0 < r)%R) by (eapply Rle_lt_trans; eauto).
    split; [done|].
    rewrite <- (sqrt_sqrt d Hd) at 1.
    apply Rmult_le_0_lt_compat; done.
  - intros [Hr Hlt]. rewrite <- (sqrt_square r) by (by apply Rlt_le).
    apply sqrt_lt_1; [done | | done].
    apply Rmult_le_pos; by apply Rlt_le.
Qed.

(** [hit] decides the test of the source, read over the real numbers:
    [Math.sqrt((x - ent.x) ** 2 + (y - ent.y) ** 2) < ent.r]. *)
Lemma hit_is_distance_test px py ent :
  hit px py ent = true
  <-> (sqrt ((Q2R px - Q2R (ent_x ent)) ^ 2 + (Q2R py - Q2R (ent_y ent)) ^ 2)
       < Q2R (ent_r ent))%R.
Proof.
  unfold hit. rewrite andb_true_iff, !Qltb_lt, sqrt_below.
  2: { apply Rplus_le_le_0_compat; apply pow2_ge_0. }
  assert (Hsq : forall a b : Q,
             ((Q2R a - Q2R b) ^ 2 = Q2R ((a - b) * (a - b)))%R).
  { intros a b. rewrite Q2R_mult, Q2R_minus. simpl. ring. }
  rewrite !Hsq, <- Q2R_plus, <- Q2R_mult.
  assert (H0 : Q2R 0 = 0%R) by (unfold Q2R; simpl; field).
  rewrite <- H0.
  split; intros [H1 H2]; split;
    (by apply Qlt_Rlt) || (by apply Rlt_Qlt).
Qed.

(** *** Taps *)

Lemma Tapped_refl px py s : Tapped px py s s.
Proof.
  exists []. rewrite app_nil_r. repeat split; try done.
  - simpl. lia.
  - by destruct s.
Qed.

Lemma Tapped_hit px py s0 s k ent :
  Tapped px py s0 s -> entities s !! k = Some ent ->
  Tapped px py s0 (hitEntity px py k ent s).
Proof.
  intros (removed & Hperm & Hsub & Hall & Hscore & Hshown & Hrest) Hk.
  unfold hitEntity. destruct (hit px py ent) eqn:Hhit.
  2: { exists removed. done. }
  exists (ent :: removed). simpl. repeat split.
  - rewrite <- Permutation_middle. etrans; [exact Hperm|].
    exact (Permutation_app_tail removed (delete_Permutation _ _ _ Hk)).
  - etrans; [apply sublist_delete | done].
  - by constructor.
  - rewrite Hscore. lia.
  - rewrite <- Hrest. done.
Qed.

Lemma Tapped_frame px py s s' :
  Tapped px py s s' ->
  config s' = config s /\ isRunning s' = isRunning s
  /\ timerInterval s' = timerInterval s /\ calls s' = calls s
  /\ score s <= score s'.
Proof.
  intros (removed & _ & _ & _ & Hscore & _ & Hrest).
  rewrite <- Hrest at 1 2 3 4. simpl. repeat split. lia.
Qed.

Lemma forEach_Tapped px py s0 n k s :
  Tapped px py s0 s -> Tapped px py s0 (forEach (hitEntity px py) n k s).
Proof.
  apply forEach_invariant. intros. by apply Tapped_hit.
Qed.

Lemma handleClick_Tapped px py s :
  isRunning s = true -> Tapped px py s (handleClick px py s).
Proof.
  intros Hrun. unfold handleClick, forEachEntity. rewrite Hrun. simpl.
  apply forEach_Tapped, Tapped_refl.
Qed.

Lemma hitEntity_entities px py k ent s :
  entities (hitEntity px py k ent s) =
    if hit px py ent then delete k (entities s) else entities s.
Proof. unfold hitEntity. by destruct (hit px py ent). Qed.

(** The loop never touches what lies before its index. *)
Lemma forEach_hit_prefix px py n k s :
  take k (entities (forEach (hitEntity px py) n k s)) = take k (entities s).
Proof.
  revert k s. induction n as [|n IH]; intros k s; simpl; [done|].
  assert (Hk : forall s', take (S k) (entities (forEach (hitEntity px py) n (S k) s'))
                          = take (S k) (entities s')
          -> take k (entities (forEach (hitEntity px py) n (S k) s'))
             = take k (entities s')).
  { intros s' H. apply (f_equal (take k)) in H.
    rewrite !take_take in H. by rewrite Nat.min_l in H by lia. }
  destruct (entities s !! k) as [ent|] eqn:E.
  - rewrite Hk by apply IH. rewrite hitEntity_entities.
    destruct (hit px py ent); [|done].
    apply lookup_lt_Some in E.
    rewrite delete_take_drop, take_app_le; [|rewrite length_take; lia].
    by rewrite take_take, Nat.min_id.
  - by rewrite Hk by apply IH.
Qed.

(** Entities that are not hit are passed without effect. *)
Lemma forEach_hit_skip px py pre :
  Forall (fun e => hit px py e = false) pre ->
  forall n s before rest,
    entities s = before ++ pre ++ rest ->
    (length pre <= n)%nat ->
    forEach (hitEntity px py) n (length before) s
    = forEach (hitEntity px py) (n - length pre)
              (length before + length pre) s.
Proof.
  induction 1 as [|e pre He Hpre IH]; intros n s before rest Hs Hn;
    simpl in *.
  { by rewrite Nat.sub_0_r, Nat.add_0_r. }
  destruct n as [|n]; [lia|]. simpl.
  assert (Hk : entities s !! length before = Some e).
  { rewrite Hs. by apply list_lookup_middle. }
  rewrite Hk. unfold hitEntity at 2. rewrite He.
  specialize (IH n s (before ++ [e]) rest).
  rewrite length_app in IH. simpl in IH.
  replace (length before + 1)%nat with (S (length before)) in IH by lia.
  rewrite IH; [f_equal; lia | | lia].
  by rewrite <- app_assoc.
Qed.

(** The first entity that the pointer is inside is removed, whatever
    follows it. *)
Lemma handleClick_first px py s pre e post :
  isRunning s = true ->
  entities s = pre ++ e :: post ->
  Forall (fun e' => hit px py e' = false) pre ->
  hit px py e = true ->
  exists post',
    entities (handleClick px py s) = pre ++ post'
    /\ post' `sublist_of` post.
Proof.
  intros Hrun Hs Hpre He.
  unfold handleClick, forEachEntity. rewrite Hrun. simpl.
  rewrite (forEach_hit_skip px py pre Hpre _ s [] (e :: post));
    [|done|rewrite Hs, length_app; lia].
  simpl. rewrite Hs, length_app. simpl.
  replace (length pre + S (length post) - length pre)%nat
    with (S (length post)) by lia.
  simpl.
  assert (Hk : entities s !! length pre = Some e).
  { rewrite Hs. by apply list_lookup_middle. }
  rewrite Hk. set (s1 := hitEntity px py (length pre) e s).
  assert (Hs1 : entities s1 = pre ++ post).
  { unfold s1. by rewrite hitEntity_entities, He, Hs, delete_middle. }
  pose proof (forEach_hit_prefix px py (length post) (S (length pre)) s1)
    as Hprefix.
  pose proof (forEach_Tapped px py s1 (length post) (S (length pre)) s1
                (Tapped_refl px py s1)) as (_ & _ & Hsub & _).
  set (s' := forEach _ _ _ s1) in *.
  apply (f_equal (take (length pre))) in Hprefix.
  rewrite !take_take, Nat.min_l in Hprefix by lia.
  rewrite Hs1, take_app_length in Hprefix.
  exists (drop (length pre) (entities s')). split.
  - by rewrite <- Hprefix at 1; rewrite take_drop.
  - rewrite <- (take_drop (length pre) (entities s')), Hprefix, Hs1 in Hsub.
    by apply sublist_app_inv_l in Hsub.
Qed.

(** *** Frames *)

Lemma frame_preserved_refl s : frame_preserved s s.
Proof. by repeat split. Qed.

Lemma updateEntity_preserved s0 k ent s :
  frame_preserved s0 s -> frame_preserved s0 (updateEntity k ent s).
Proof.
  unfold updateEntity. by destruct (Qle_bool _ 0).
Qed.

Lemma spawn_preserved time d s : frame_preserved s (spawn time d s).
Proof.
  unfold spawn. destruct (Qltb _ _); by repeat split.
Qed.

Lemma render_preserved time d s : frame_preserved s (render time d s).
Proof.
  unfold render. destruct (negb (isRunning s)).
  { apply frame_preserved_refl. }
  unfold forEachEntity. apply forEach_invariant.
  - intros k ent s' H _. by apply updateEntity_preserved.
  - apply spawn_preserved.
Qed.

Lemma updateEntity_entities k ent s :
  exists ent',
    ent_life ent' = (ent_life ent - 1 * speedMultiplier (config s))%Q
    /\ entities (updateEntity k ent s) =
       if Qle_bool (ent_life ent') 0 then delete k (entities s)
       else <[k := ent']> (entities s).
Proof.
  unfold updateEntity. eexists (mkEntity _ _ _ _ _ _ _). split; [done|].
  simpl. destruct (Qle_bool _ 0); simpl; [|done].
  apply delete_insert_same.
Qed.

Lemma updateEntity_alive k ent s :
  alive s -> alive (updateEntity k ent s).
Proof.
  unfold alive. intros H.
  destruct (updateEntity_entities k ent s) as (ent' & _ & ->).
  destruct (Qle_bool _ 0) eqn:E.
  - by apply Forall_delete.
  - apply Forall_insert; [done|].
    apply Qnot_le_lt. intros Hle. apply Qle_bool_iff in Hle. congruence.
Qed.

Lemma spawn_alive time d s : alive s -> alive (spawn time d s).
Proof.
  unfold alive, spawn. intros H. destruct (Qltb _ _); [|done]. simpl.
  apply Forall_app. split; [done|]. by repeat constructor.
Qed.

Lemma render_alive time d s : alive s -> alive (render time d s).
Proof.
  intros H. unfold render. destruct (negb (isRunning s)); [done|].
  unfold forEachEntity. apply forEach_invariant.
  - intros k ent s' Hs' _. by apply updateEntity_alive.
  - by apply spawn_alive.
Qed.

Lemma handleClick_alive px py s : alive s -> alive (handleClick px py s).
Proof.
  intros H. unfold handleClick. destruct (isRunning s) eqn:Hrun; [|done].
  simpl. pose proof (forEach_Tapped px py s (length (entities s)) 0 s
                       (Tapped_refl px py s)) as (_ & _ & Hsub & _).
  unfold alive in *. rewrite Forall_forall in *. intros e He.
  apply H. eapply elem_of_sublist; eauto.
Qed.

(** *** Sessions *)

Lemma tick_entities s : entities (tick s) = entities s.
Proof.
  unfold tick. destruct (negb _); [done|]. by destruct (_ <=? _).
Qed.

Lemma step_alive s e : alive s -> alive (step s e).
Proof.
  destruct e; simpl; intros H.
  - by apply render_alive.
  - by apply handleClick_alive.
  - unfold alive. by rewrite tick_entities.
  - done.
Qed.

Lemma mount_alive cfg w h d : alive (mount cfg w h d).
Proof. apply render_alive. constructor. Qed.

Lemma run_alive cfg w h d evs : alive (run (mount cfg w h d) evs).
Proof.
  unfold run. induction evs as [|e evs IH] using rev_ind.
  - apply mount_alive.
  - rewrite foldl_app. simpl. by apply step_alive.
Qed.

Lemma step_session_ok s e : session_ok s -> session_ok (step s e).
Proof.
  intros [Hscore Hphase]. destruct e as [time d|px py| |w h]; simpl.
  - unfold session_ok. destruct (render_preserved time d s)
      as (_ & -> & -> & _ & _ & -> & ->). by split.
  - unfold handleClick.
    destruct Hphase as [(Hrun & Htimer & Hcalls)|(Hrun & Htimer & Hcalls)];
      rewrite Hrun; simpl; [|split; auto].
    destruct (Tapped_frame px py s _ (forEach_Tapped px py s
                (length (entities s)) 0 s (Tapped_refl px py s)))
      as (_ & Hrun' & Htimer' & Hcalls' & Hsc).
    unfold forEachEntity. split; [lia|].
    left. by rewrite Hrun', Htimer', Hcalls'.
  - unfold tick.
    destruct Hphase as [(Hrun & Htimer & Hcalls)|(Hrun & Htimer & Hcalls)];
      rewrite Htimer; simpl; [|split; auto].
    destruct (timeLeft s <=? 1); simpl; split; auto.
    right. by rewrite Hcalls.
  - by split.
Qed.

Lemma mount_session_ok cfg w h d : session_ok (mount cfg w h d).
Proof.
  unfold mount.
  destruct (render_preserved 0 d (handleResize w h (initial cfg)))
    as (_ & Hrun & Hscore & _ & _ & Htimer & Hcalls).
  split; [by rewrite Hscore|]. left. by rewrite Hrun, Htimer, Hcalls.
Qed.

Lemma run_session_ok cfg w h d evs : session_ok (run (mount cfg w h d) evs).
Proof.
  unfold run. induction evs as [|e evs IH] using rev_ind.
  - apply mount_session_ok.
  - rewrite foldl_app. simpl. by apply step_session_ok.
Qed.

(** The Clicker calls [onGameOver] at most once in a session, with a score
    that is not negative. *)
Lemma clicker_calls cfg w h d evs :
  (length (calls (run (mount cfg w h d) evs)) <= 1)%nat
  /\ Forall (fun sc => 0 <= sc) (calls (run (mount cfg w h d) evs)).
Proof.
  destruct (run_session_ok cfg w h d evs)
    as [Hscore [(_ & _ & ->)|(_ & _ & ->)]]; simpl.
  - split; [lia | constructor].
  - split; [lia | by repeat constructor].
Qed.

Lemma clicker_step_config s e : config (step s e) = config s.
Proof.
  destruct e as [time d|px py| |w h]; simpl.
  - by destruct (render_preserved time d s) as (-> & _).
  - unfold handleClick, forEachEntity.
    destruct (negb (isRunning s)); [done|].
    by destruct (Tapped_frame px py s _ (forEach_Tapped px py s
                   (length (entities s)) 0 s (Tapped_refl px py s)))
      as (-> & _).
  - unfold tick. destruct (negb _); [done|]. by destruct (_ <=? _).
  - done.
Qed.

Lemma clicker_run_config cfg w h d evs : config (run (mount cfg w h d) evs) = cfg.
Proof.
  unfold run. induction evs as [|e evs IH] using rev_ind.
  - apply (clicker_step_config (handleResize w h (initial cfg)) (Frame 0 d)).
  - rewrite foldl_app. simpl. by rewrite clicker_step_config.
Qed.

(** C5 (as amended).  While the game runs, a tap removes only targets
    whose centre is closer to the pointer than their current radius, keeps
    the other targets in their order and adds exactly 10 points for each
    target it removes; the first such target in iteration order is always
    removed (a tap may remove more than one).  Frames never change the
    score, and after every event of a session each target of the list has
    life left: a target whose life reaches 0 is removed by the frame in
    which it does. *)
Theorem tap_scores_each_removed_target :
  (forall px py s,
      isRunning s = true ->
      exists removed,
        entities s ≡ₚ entities (handleClick px py s) ++ removed
        /\ entities (handleClick px py s) `sublist_of` entities s
        /\ Forall (fun e => hit px py e = true) removed
        /\ score (handleClick px py s)
           = score s + 10 * Z.of_nat (length removed))
  /\ (forall px py s pre e post,
        isRunning s = true ->
        entities s = pre ++ e :: post ->
        Forall (fun e' => hit px py e' = false) pre ->
        hit px py e = true ->
        exists post',
          entities (handleClick px py s) = pre ++ post'
          /\ post' `sublist_of` post)
  /\ (forall time d s, score (render time d s) = score s)
  /\ (forall cfg w h d evs,
        Forall (fun e => (0 < ent_life e)%Q)
               (entities (run (mount cfg w h d) evs))).
Proof.
  split; [|split; [|split]].
  - intros px py s Hrun.
    destruct (handleClick_Tapped px py s Hrun)
      as (removed & Hperm & Hsub & Hall & Hscore & _).
    by exists removed.
  - intros. by eapply handleClick_first.
  - intros time d s. by destruct (render_preserved time d s) as (_ & _ & -> & _).
  - apply run_alive.
Qed.

Lemma tap_scores_each_removed_target_witness :
  exists removed,
    entities Scenario.overlapping
    ≡ₚ entities (handleClick 400 300 Scenario.overlapping) ++ removed
    /\ entities (handleClick 400 300 Scenario.overlapping)
       `sublist_of` entities Scenario.overlapping
    /\ Forall (fun e => hit 400 300 e = true) removed
    /\ score (handleClick 400 300 Scenario.overlapping)
       = score Scenario.overlapping + 10 * Z.of_nat (length removed).
Proof.
  apply (proj1 tap_scores_each_removed_target 400%Q 300%Q Scenario.overlapping).
  vm_compute. reflexivity.
Defined.

(** The claim as the specification words it fails: with two targets on
    the same spot and another one between them in the array, one tap
    removes both and adds 20 points. *)
Lemma tap_removes_two_targets :
  isRunning Scenario.overlapping = true
  /\ map ent_id (entities Scenario.overlapping) = [0; 1; 2]%nat
  /\ map (hit 400 300) (entities Scenario.overlapping) = [true; false; true]
  /\ map ent_id (entities (handleClick 400 300 Scenario.overlapping))
     = [1%nat]
  /\ score (handleClick 400 300 Scenario.overlapping)
     = score Scenario.overlapping + 20.
Proof. by vm_compute. Qed.

(** When the two targets are next to each other in the array, the second
    one moves into the slot of the first and the loop passes it over: only
    the first one is removed. *)
Example tap_passes_over_the_next_target :
  map ent_id (entities Scenario.adjacent) = [0; 1]%nat
  /\ map (hit 400 300) (entities Scenario.adjacent) = [true; true]
  /\ map ent_id (entities (handleClick 400 300 Scenario.adjacent)) = [1%nat]
  /\ score (handleClick 400 300 Scenario.adjacent)
     = score Scenario.adjacent + 10.
Proof. by vm_compute. Qed.

End ClickerFacts.

(** ** Catcher *)

Module CatcherFacts.
Import Catcher.

(** *** One iteration of the item loop *)

(** A caught item is removed and scores one point; lives and reports are
    as before. *)
Lemma updateItem_caught i s item :
  items s !! i = Some item ->
  caught s (fall item) = true ->
  items (updateItem i s) = delete i (items s)
  /\ score (updateItem i s) = score s + 1
  /\ lives (updateItem i s) = lives s
  /\ calls (updateItem i s) = calls s.
Proof.
  intros Hi Hc. unfold updateItem. rewrite Hi. simpl.
  change (caught (set_items _ s) (fall item)) with (caught s (fall item)).
  rewrite Hc. simpl. by rewrite delete_insert_same.
Qed.

(** An item that left the screen uncaught is removed and costs one life;
    the score is as before, and it is reported if no life is left. *)
Lemma updateItem_missed i s item :
  items s !! i = Some item ->
  caught s (fall item) = false ->
  missed s (fall item) = true ->
  items (updateItem i s) = delete i (items s)
  /\ score (updateItem i s) = score s
  /\ lives (updateItem i s) = lives s - 1
  /\ calls (updateItem i s)
     = (if lives s - 1 <=? 0 then calls s ++ [score s] else calls s).
Proof.
  intros Hi Hc Hm. unfold updateItem. rewrite Hi. simpl.
  change (caught (set_items _ s) (fall item)) with (caught s (fall item)).
  change (missed (set_items _ s) (fall item)) with (missed s (fall item)).
  rewrite Hc, Hm. simpl.
  destruct (lives s - 1 <=? 0); simpl; by rewrite delete_insert_same.
Qed.

(** Any other item only moves. *)
Lemma updateItem_falling i s item :
  items s !! i = Some item ->
  caught s (fall item) = false ->
  missed s (fall item) = false ->
  updateItem i s = set_items (<[i := fall item]> (items s)) s.
Proof.
  intros Hi Hc Hm. unfold updateItem. rewrite Hi. simpl.
  change (caught (set_items _ s) (fall item)) with (caught s (fall item)).
  change (missed (set_items _ s) (fall item)) with (missed s (fall item)).
  by rewrite Hc, Hm.
Qed.

(** *** Sessions *)

Lemma updateItem_ok i s : session_ok s -> session_ok (updateItem i s).
Proof.
  intros (Hscore & Hcalls & Hphase). unfold updateItem.
  destruct (items s !! i) as [item|]; [|done]. simpl.
  destruct (caught _ _); [|destruct (missed _ _)]; unfold session_ok; simpl.
  - split; [lia|]. done.
  - destruct (lives s - 1 <=? 0) eqn:E; simpl;
      [apply Z.leb_le in E | apply Z.leb_gt in E].
    + split; [done|]. split.
      { apply Forall_app. split; [done|]. by repeat constructor. }
      right. split; [done|]. split; [done|].
      rewrite length_app. simpl.
      destruct Hphase as [(Hl & _ & ->)|(Hl & _ & Hn)]; simpl; lia.
    + split; [done|]. split; [done|]. left.
      destruct Hphase as [(Hl & Hr & Hc)|(Hl & _ & _)]; [|lia]. 
      split; [lia|]. done.
  - done.
Qed.

Lemma updateItems_ok n s : session_ok s -> session_ok (updateItems n s).
Proof.
  revert s. induction n as [|n IH]; intros s H; simpl; [done|].
  by apply IH, updateItem_ok.
Qed.

Lemma constrain_ok s : session_ok s -> session_ok (constrain s).
Proof.
  unfold constrain. intros H.
  destruct (Qltb (playerX s) _); destruct (Qltb _ _); done.
Qed.

Lemma spawn_ok time d s : session_ok s -> session_ok (spawn time d s).
Proof. unfold spawn. intros H. by destruct (Qltb _ _). Qed.

Lemma catcher_step_ok s e : session_ok s -> session_ok (step s e).
Proof.
  intros H. destruct e as [time d|px|px|w h]; simpl; try done.
  unfold render. destruct (negb (isRunning s)); [done|].
  by apply updateItems_ok, spawn_ok, constrain_ok.
Qed.

Lemma catcher_mount_ok cfg w h d : session_ok (mount cfg w h d).
Proof.
  apply (catcher_step_ok _ (Frame 0 d)).
  split; [done|]. split; [constructor|]. left. done.
Qed.

Lemma catcher_run_ok cfg w h d evs : session_ok (run (mount cfg w h d) evs).
Proof.
  unfold run. induction evs as [|e evs IH] using rev_ind.
  - apply catcher_mount_ok.
  - rewrite foldl_app. simpl. by apply catcher_step_ok.
Qed.

(** The Catcher reports nothing while lives are left, and only scores that
    are not negative; once the lives are exhausted it has reported once
    for each life lost from 1 downwards. *)
Lemma catcher_calls cfg w h d evs :
  let s := run (mount cfg w h d) evs in
  Forall (fun sc => 0 <= sc) (calls s)
  /\ (0 < lives s -> calls s = [])
  /\ (lives s <= 0 -> Z.of_nat (length (calls s)) = 1 - lives s).
Proof.
  destruct (catcher_run_ok cfg w h d evs) as (_ & Hcalls & Hphase). simpl.
  split; [done|]. 
  destruct Hphase as [(Hl & _ & ->)|(Hl & _ & Hn)]; split; (done || lia).
Qed.

Lemma constrain_fields s :
  config (constrain s) = config s /\ lastSpawn (constrain s) = lastSpawn s
  /\ items (constrain s) = items s /\ score (constrain s) = score s
  /\ lives (constrain s) = lives s /\ calls (constrain s) = calls s.
Proof.
  unfold constrain.
  destruct (Qltb (playerX s) _); destruct (Qltb _ _); done.
Qed.

(** The frame at time 0 is too early to spawn. *)
Lemma spawn_early d s :
  (lastSpawn s == 0)%Q -> spawn 0 d s = s.
Proof.
  intros H0. unfold spawn.
  assert (Hearly : Qltb (spawnRate (config s)) (0 - lastSpawn s) = false).
  { apply Qltb_ge. unfold spawnRate. rewrite H0.
    apply Qle_trans with 300%Q; [by vm_compute | apply Q.le_max_l]. }
  by rewrite Hearly.
Qed.

(** The session starts without items, with no points and with 5 lives. *)
Lemma mount_fresh cfg w h d :
  items (mount cfg w h d) = [] /\ score (mount cfg w h d) = 0
  /\ lives (mount cfg w h d) = 5 /\ calls (mount cfg w h d) = [].
Proof.
  unfold mount, render.
  set (s0 := handleResize w h (initial cfg)).
  change (negb (isRunning s0)) with false. cbv iota.
  destruct (constrain_fields s0) as (_ & Hlast & Hitems & Hscore & Hlives & Hcalls).
  rewrite spawn_early by (by rewrite Hlast).
  rewrite Hitems. change (items s0) with (@nil Item). simpl.
  by rewrite Hitems, Hscore, Hlives, Hcalls.
Qed.

Lemma updateItem_config i s : config (updateItem i s) = config s.
Proof.
  unfold updateItem. destruct (items s !! i); [|done]. simpl.
  destruct (caught _ _); [done|]. destruct (missed _ _); [|done]. simpl.
  by destruct (_ <=? _).
Qed.

Lemma updateItems_config n s : config (updateItems n s) = config s.
Proof.
  revert s. induction n as [|n IH]; intros s; simpl; [done|].
  by rewrite IH, updateItem_config.
Qed.

Lemma catcher_step_config s e : config (step s e) = config s.
Proof.
  destruct e as [time d|px|px|w h]; simpl; try done.
  unfold render. destruct (negb (isRunning s)); [done|].
  rewrite updateItems_config. unfold spawn.
  destruct (constrain_fields s) as (Hc & _).
  by destruct (Qltb _ _).
Qed.

Lemma catcher_run_config cfg w h d evs : config (run (mount cfg w h d) evs) = cfg.
Proof.
  unfold run. induction evs as [|e evs IH] using rev_ind.
  - apply (catcher_step_config (handleResize w h (initial cfg)) (Frame 0 d)).
  - rewrite foldl_app. simpl. by rewrite catcher_step_config.
Qed.

(** C2 (code defect).  Catching an item adds one point and removes it
    ([updateItem_caught]), and an item that leaves the screen uncaught is
    removed and costs one of the 5 lives ([updateItem_missed],
    [mount_fresh]); but the loop goes on after the lives are exhausted:
    in the session below the last life is still there after frame 279,
    two items leave the screen in frame 280, the lives drop to 0 and then
    to -1, and the score is reported twice instead of once. *)
Lemma catcher_lives_exhausted_reports_twice :
  lives (Scenario.idle 279) = 1
  /\ calls (Scenario.idle 279) = []
  /\ Scenario.idle 280 = step (Scenario.idle 279) (Scenario.catcherFrame 280)
  /\ lives (Scenario.idle 280) = -1
  /\ score (Scenario.idle 280) = 0
  /\ calls (Scenario.idle 280) = [0; 0].
Proof. by vm_compute. Qed.

(** C1 (code defect).  The Catcher can invoke [onGameOver] more than once
    in a session: in the session below, in which two items leave the
    screen in the frame that takes the last life, it is invoked twice.
    (Every score that any of the three games reports is a non-negative
    integer, and the Clicker and the Memory game report at most once:
    [catcher_calls], [ClickerFacts.clicker_calls],
    [MemoryFacts.memory_calls].) *)
Lemma catcher_reports_more_than_once :
  length (calls (Scenario.idle 280)) = 2%nat
  /\ ~ (length (calls (Scenario.idle 280)) <= 1)%nat.
Proof. split; [by vm_compute | vm_compute; lia]. Qed.

End CatcherFacts.

(** ** Memory *)

Module MemoryFacts.
Import Memory.

(** *** The deck *)

Local Arguments gameOverCheck : simpl never.
Local Arguments checkMatch : simpl never.

Local Arguments commit : simpl never.

(** *** Rendering passes *)

Lemma flush_nil s : flush [] s = (s, noDeps).
Proof. unfold flush. simpl. by rewrite Nat.eqb_refl. Qed.

Lemma commit_noDeps fuel s : commit fuel noDeps s = s.
Proof. by destruct fuel. Qed.

Lemma commit_S fuel d s :
  anyDeps d = true ->
  commit (S fuel) d s
  = commit fuel (flush (effects d s).2 (effects d s).1).2
           (flush (effects d s).2 (effects d s).1).1.
Proof.
  intros H. simpl. unfold commit at 1. fold commit. rewrite H.
  destruct (effects d s) as [s1 us]. simpl.
  by destruct (flush us s1) as [s2 d'].
Qed.

Lemma dispatch_nil s : dispatch [] s = s.
Proof. unfold dispatch. by rewrite flush_nil, commit_noDeps. Qed.

Section Deck.
Variable shuffle : list string -> list string.

(** The initialisation effect sorts a fresh array: the array of the
    configuration keeps its content. *)
Lemma buildDeck_heap (assets : list string) :
  buildDeck shuffle 0 [assets]
  = (imap (fun index item => mkCard index item false false)
          (shuffle (take 8 assets ++ take 8 assets)),
     [assets; take 8 assets; shuffle (take 8 assets ++ take 8 assets)]).
Proof. reflexivity. Qed.

Lemma half_length (m : Z) (n : nat) :
  Qeq_bool (inject_Z m) (inject_Z (Z.of_nat n) / 2)
  = (2 * m =? Z.of_nat n).
Proof.
  unfold Qeq_bool, Qdiv, Qmult, Qinv, inject_Z. simpl.
  change (Z.pos (1 * 2)) with 2.
  destruct (Z.eqb_spec (2 * m) (Z.of_nat n));
    destruct (Z.eqb_spec (m * 2) (Z.of_nat n * 1 * 1)); (done || lia).
Qed.

Lemma gameOverCheck_won s :
  gameOverCheck s
  = if won s then
      mkState (config s) (cards s) (flippedIds s) (matches s) (moves s)
              (now s) (flipBack s)
              (gameOver s ++ [((now s + 1000)%nat, finalScore s)])
              (calls s)
    else s.
Proof. unfold gameOverCheck, won. by rewrite half_length. Qed.

Lemma mount_state cfg :
  mount shuffle cfg
  = mkState cfg
            (imap (fun index item => mkCard index item false false)
                  (shuffle (take 8 (assets cfg) ++ take 8 (assets cfg))))
            [] 0 0 0%nat None [] [].
Proof.
  unfold mount. rewrite buildDeck_heap.
  change (read 0 _) with (assets cfg).
  replace (mkConfig _ _ _ _ _ (assets cfg) _) with cfg by (by destruct cfg).
  set (deck := imap _ _).
  change (effects allDeps (initial cfg)) with (initial cfg, @nil Update).
  cbv iota beta. unfold dispatch, flush, renderPasses.
  cbn [foldl applyUpdate touch noDeps cards initial length
       d_cards d_flippedIds d_matches d_moves d_length].
  rewrite commit_S by done.
  set (s1 := mkState _ deck _ _ _ _ _ _ _).
  assert (Heff : forall d, effects (mkDeps true false false false d) s1
                           = (s1, [])).
  { intros d. unfold effects. cbn [d_cards d_flippedIds d_matches d_moves
                                    d_length orb].
    change (checkMatch s1) with (s1, @nil Update). cbv iota beta.
    rewrite gameOverCheck_won.
    replace (won s1) with false; [by destruct d|].
    unfold won, s1. cbn [cards matches]. by destruct (length deck). }
  rewrite Heff. cbn [fst snd]. by rewrite flush_nil, commit_noDeps.
Qed.

Lemma deck_contents (l : list string) :
  map content (imap (fun index item => mkCard index item false false) l)
  = l.
Proof.
  apply list_eq. intros i.
  change (map content ?k) with (content <$> k).
  rewrite list_lookup_fmap, list_lookup_imap. by destruct (l !! i).
Qed.

Lemma deck_ids (l : list string) :
  map card_id (imap (fun index item => mkCard index item false false) l)
  = seq 0 (length l).
Proof.
  apply list_eq. intros i.
  change (map card_id ?k) with (card_id <$> k).
  rewrite list_lookup_fmap, list_lookup_imap.
  destruct (l !! i) eqn:E; simpl.
  - apply lookup_lt_Some in E. by rewrite lookup_seq_lt.
  - apply lookup_ge_None in E. by rewrite lookup_seq_ge.
Qed.

Hypothesis shuffle_permutes : forall l, shuffle l ≡ₚ l.


Lemma deck_length cfg :
  length (cards (mount shuffle cfg))
  = (2 * (8 `min` length (assets cfg)))%nat.
Proof.
  rewrite mount_state. cbn [cards].
  rewrite length_imap, shuffle_permutes, length_app, length_take. lia.
Qed.

Lemma deck_count cfg v :
  count_occ String.string_dec (map content (cards (mount shuffle cfg))) v
  = (2 * count_occ String.string_dec (take 8 (assets cfg)) v)%nat.
Proof.
  rewrite mount_state. cbn [cards]. rewrite deck_contents.
  rewrite (proj1 (Permutation_count_occ String.string_dec _ _)
                 (shuffle_permutes _) v).
  rewrite count_occ_app. lia.
Qed.

(** C3 (as amended).  Whatever permutation the shuffle produces, the
    deck built from an asset list of length at least 8 has 16 cards, an
    even number, and the deck built from a shorter list has twice as
    many cards as the list; every content value appears in the deck
    exactly twice as often as among the first 8 assets, hence exactly
    twice when these are pairwise distinct. *)
Theorem deck_pairs cfg :
  (8 <= length (assets cfg) ->
   length (cards (mount shuffle cfg)) = 16
   /\ Nat.Even (length (cards (mount shuffle cfg))))%nat
  /\ (length (assets cfg) < 8 ->
      length (cards (mount shuffle cfg)) = 2 * length (assets cfg))%nat
  /\ (forall v,
        count_occ String.string_dec
                  (map content (cards (mount shuffle cfg))) v
        = 2 * count_occ String.string_dec (take 8 (assets cfg)) v)%nat
  /\ (NoDup (take 8 (assets cfg)) ->
      forall v,
        v ∈ map content (cards (mount shuffle cfg)) ->
        count_occ String.string_dec
                  (map content (cards (mount shuffle cfg))) v
        = 2%nat).
Proof.
  split; [|split; [|split]].
  - intros H. rewrite deck_length. split; [lia|]. exists 8%nat. lia.
  - intros H. rewrite deck_length. lia.
  - apply deck_count.
  - intros Hnodup v Hv. rewrite deck_count.
    apply list_elem_of_In, (count_occ_In String.string_dec) in Hv.
    rewrite deck_count in Hv.
    assert (In v (take 8 (assets cfg))) as Hin.
    { apply (count_occ_In String.string_dec). lia. }
    apply NoDup_ListNoDup in Hnodup.
    by rewrite (proj1 (NoDup_count_occ' String.string_dec _) Hnodup v Hin).
Qed.

End Deck.

Lemma backwards_permutes (l : list string) : Scenario.backwards l ≡ₚ l.
Proof. symmetry. apply Permutation_rev. Qed.

Lemma deck_pairs_witness :
  (length (cards (mount Scenario.backwards Scenario.config_distinct)) = 16
   /\ Nat.Even (length (cards (mount Scenario.backwards Scenario.config_distinct))))%nat.
Proof.
  apply (deck_pairs Scenario.backwards backwards_permutes Scenario.config_distinct).
  vm_compute. lia.
Defined.

(** The claim as the specification words it fails for an asset list that
    repeats a value among its first 8 entries: that value appears four
    times in the deck. *)
Lemma deck_with_repeated_asset :
  (8 <= length (assets Scenario.config_repeated))%nat
  /\ "a" ∈ map content (cards (mount Scenario.backwards Scenario.config_repeated))
  /\ count_occ String.string_dec
               (map content (cards (mount Scenario.backwards Scenario.config_repeated))) "a"
     = 4%nat.
Proof.
  split; [vm_compute; lia|]. split; [|by vm_compute].
  vm_compute. apply list_elem_of_In. simpl. tauto.
Qed.




(** *** What an event does *)

Lemma commit_quiet fuel d s :
  anyDeps d = true -> (effects d s).2 = [] ->
  commit (S fuel) d s = (effects d s).1.
Proof.
  intros Hd Hus. rewrite commit_S by done.
  by rewrite Hus, flush_nil, commit_noDeps.
Qed.

(** The effects queue nothing when no two cards are turned or when the
    check-match effect does not run. *)
Lemma effects_quiet d s :
  length (flippedIds s) <> 2%nat \/ d_flippedIds d || d_cards d = false ->
  (effects d s).2 = [].
Proof.
  intros H. unfold effects.
  destruct (d_flippedIds d || d_cards d); [|done].
  destruct H as [H|H]; [|done].
  unfold checkMatch.
  destruct (flippedIds s) as [|a [|b [|c l]]]; simpl in *; done.
Qed.

(** Three rendering passes are enough: more fuel gives the same state. *)
Lemma commit_enough k d s :
  commit (renderPasses + k) d s = commit renderPasses d s.
Proof.
  unfold renderPasses. cbn [plus].
  destruct (anyDeps d) eqn:Hd; [|by unfold commit; rewrite Hd].
  rewrite !(commit_S _ d) by done.
  destruct (effects d s) as [s1 us] eqn:Heff. cbn [fst snd].
  assert (Hus : us = [] \/ us = [SetMoves (fun m => m + 1)]
                \/ exists a b, us = [SetMoves (fun m => m + 1);
                                     SetCards (map (markMatched a b));
                                     SetMatches (fun m => m + 1);
                                     SetFlippedIds (fun _ => [])]).
  { revert Heff. unfold effects.
    destruct (d_flippedIds d || d_cards d); [|intros [= <- <-]; by left].
    unfold checkMatch.
    destruct (flippedIds s) as [|a [|b [|c l]]];
      try (intros [= <- <-]; by left).
    destruct (sameContent _ _); intros [= <- <-]; [|right; by left].
    right; right. by exists a, b. }
  destruct Hus as [->|[->|(a & b & ->)]].
  - by rewrite flush_nil, !commit_noDeps.
  - unfold flush. cbn [foldl applyUpdate touch noDeps cards
                       d_cards d_flippedIds d_matches d_moves d_length].
    rewrite Nat.eqb_refl. cbn [negb].
    rewrite !commit_quiet; try done; by apply effects_quiet; right.
  - unfold flush. cbn [foldl applyUpdate touch noDeps cards
                       d_cards d_flippedIds d_matches d_moves d_length].
    rewrite !commit_quiet; try done; by apply effects_quiet; left.
Qed.

(** A taken click: one card is turned; if it is the second one, the pair
    is evaluated in the next rendering pass. *)
Lemma dispatch_flip i s :
  (length (flippedIds s) < 2)%nat ->
  dispatch [SetCards (map (faceUp i)); SetFlippedIds (fun prev => prev ++ [i])] s
  = match flippedIds s with
    | [] => turnedFirst i s
    | [a] =>
        if sameContent (findCard a (map (faceUp i) (cards s)))
                       (findCard i (map (faceUp i) (cards s)))
        then matchedPair a i s
        else mismatchedPair a i s
    | _ => s
    end.
Proof.
  intros Hlen. unfold dispatch, flush, renderPasses.
  cbn [foldl applyUpdate touch noDeps cards config flippedIds matches moves
       now flipBack gameOver calls
       d_cards d_flippedIds d_matches d_moves d_length].
  rewrite length_map, Nat.eqb_refl. cbn [negb].
  destruct (flippedIds s) as [|a [|b l]] eqn:Hf; [| |simpl in Hlen; lia].
  - rewrite commit_quiet; done.
  - rewrite commit_S by done.
    unfold effects at 1 2 3 4.
    cbn [d_cards d_flippedIds d_matches d_moves d_length orb].
    unfold checkMatch. cbn [flippedIds app cards now].
    destruct (sameContent _ _).
    + cbn [fst snd]. unfold flush.
      cbn [foldl applyUpdate touch noDeps cards config flippedIds matches
           moves now flipBack gameOver calls set_flipBack
           d_cards d_flippedIds d_matches d_moves d_length].
      rewrite !length_map, Nat.eqb_refl. cbn [negb].
      rewrite commit_quiet; done.
    + cbn [fst snd]. unfold flush.
      cbn [foldl applyUpdate touch noDeps cards config flippedIds matches
           moves now flipBack gameOver calls set_flipBack
           d_cards d_flippedIds d_matches d_moves d_length].
      rewrite Nat.eqb_refl. cbn [negb].
      rewrite commit_quiet; done.
Qed.

(** The mismatch timeout turns its two cards back. *)
Lemma dispatch_flipBack a b s :
  dispatch (flipBackCallback a b) s
  = mkState (config s) (map (faceDown a b) (cards s)) [] (matches s)
            (moves s) (now s) None (gameOver s) (calls s).
Proof.
  unfold dispatch, flipBackCallback, flush, renderPasses.
  cbn [foldl applyUpdate touch noDeps cards config flippedIds matches moves
       now flipBack gameOver calls
       d_cards d_flippedIds d_matches d_moves d_length].
  rewrite length_map, Nat.eqb_refl. cbn [negb].
  rewrite commit_quiet; done.
Qed.


Lemma step_click i s :
  step s (Click i)
  = if accepted i s then
      match flippedIds s with
      | [] => turnedFirst i s
      | [a] =>
          if sameContent (findCard a (map (faceUp i) (cards s)))
                         (findCard i (map (faceUp i) (cards s)))
          then matchedPair a i s
          else mismatchedPair a i s
      | _ => s
      end
    else s.
Proof.
  unfold step, accepted. destruct (hasButton i s); [|done].
  cbn [andb]. unfold handleCardClick.
  destruct (2 <=? length (flippedIds s))%nat eqn:Hlen.
  { by rewrite dispatch_nil. }
  apply Nat.leb_gt in Hlen.
  destruct (existsb (Nat.eqb i) (flippedIds s)).
  { by rewrite dispatch_nil. }
  destruct (findCard i (cards s)) as [card|].
  - destruct (isMatched card); [by rewrite dispatch_nil|].
    by rewrite dispatch_flip.
  - by rewrite dispatch_flip.
Qed.

Lemma step_wait dt s :
  step s (Wait dt)
  = set_now (now s + dt)
      (fireGameOver (now s + dt)
         match flipBack s with
         | Some (deadline, a, b) =>
             if (deadline <=? now s + dt)%nat then turnedBack deadline a b s
             else s
         | None => s
         end).
Proof.
  unfold step, wait, fireFlipBack.
  destruct (flipBack s) as [[[deadline a] b]|]; [|done].
  destruct (deadline <=? now s + dt)%nat; [|done].
  by rewrite dispatch_flipBack.
Qed.

(** *** Cards and their identifiers *)

Lemma findCard_Some i cs c :
  findCard i cs = Some c -> c ∈ cs /\ card_id c = i.
Proof.
  intros H. apply find_some in H as [Hin Hid].
  split; [by apply list_elem_of_In | by apply Nat.eqb_eq].
Qed.

Lemma findCard_unique cs c :
  NoDup (map card_id cs) -> c ∈ cs -> findCard (card_id c) cs = Some c.
Proof.
  induction cs as [|c' cs IH]; intros Hnd Hin; [by inversion Hin|].
  simpl in *. apply NoDup_cons in Hnd as [Hnotin Hnd].
  destruct (Nat.eqb_spec (card_id c') (card_id c)) as [Heq|Hne].
  - apply elem_of_cons in Hin as [->|Hin]; [done|].
    exfalso. apply Hnotin. rewrite Heq.
    change (map card_id cs) with (card_id <$> cs). by apply list_elem_of_fmap_2.
  - apply elem_of_cons in Hin as [->|Hin]; [done|]. by apply IH.
Qed.

Lemma findCard_map (g : Card -> Card) i cs :
  (forall c, card_id (g c) = card_id c) ->
  findCard i (map g cs) = g <$> findCard i cs.
Proof.
  intros Hg. induction cs as [|c cs IH]; [done|]. simpl.
  rewrite Hg. by destruct (card_id c =? i)%nat.
Qed.

Lemma hasButton_find i s :
  hasButton i s = true <-> exists c, findCard i (cards s) = Some c.
Proof.
  unfold hasButton, findCard. induction (cards s) as [|c cs IH]; simpl.
  - split; [done | by intros [? ?]].
  - destruct (card_id c =? i)%nat; simpl; [|done].
    split; eauto.
Qed.

Lemma faceUp_id i c : card_id (faceUp i c) = card_id c.
Proof. unfold faceUp. by destruct (_ =? _)%nat. Qed.

Lemma faceDown_id a b c : card_id (faceDown a b c) = card_id c.
Proof. unfold faceDown. by destruct (_ || _). Qed.

Lemma markMatched_id a b c : card_id (markMatched a b c) = card_id c.
Proof. unfold markMatched. by destruct (_ || _). Qed.

Lemma faceUp_matched i c : isMatched (faceUp i c) = isMatched c.
Proof. unfold faceUp. by destruct (_ =? _)%nat. Qed.

Lemma faceDown_matched a b c : isMatched (faceDown a b c) = isMatched c.
Proof. unfold faceDown. by destruct (_ || _). Qed.

Lemma faceUp_content i c : content (faceUp i c) = content c.
Proof. unfold faceUp. by destruct (_ =? _)%nat. Qed.

Lemma map_ids (g : Card -> Card) cs :
  (forall c, card_id (g c) = card_id c) ->
  map card_id (map g cs) = map card_id cs.
Proof.
  intros Hg. rewrite map_map. apply map_ext. intros c. apply Hg.
Qed.

Lemma filter_matched (g : Card -> Card) cs :
  (forall c, isMatched (g c) = isMatched c) ->
  length (filter (fun c => isMatched c = true) (map g cs))
  = length (filter (fun c => isMatched c = true) cs).
Proof.
  intros Hg. induction cs as [|c cs IH]; [done|]. simpl.
  rewrite !filter_cons, Hg.
  destruct (decide (isMatched c = true)); simpl; by rewrite IH.
Qed.

Lemma sameContent_faceUp i a b cs :
  sameContent (findCard a (map (faceUp i) cs)) (findCard b (map (faceUp i) cs))
  = sameContent (findCard a cs) (findCard b cs).
Proof.
  rewrite !findCard_map by apply faceUp_id.
  destruct (findCard a cs), (findCard b cs); simpl; try done.
  by rewrite !faceUp_content.
Qed.

Lemma markMatched_matched a b c :
  isMatched (markMatched a b c)
  = isMatched c || (card_id c =? a)%nat || (card_id c =? b)%nat.
Proof.
  unfold markMatched.
  destruct (card_id c =? a)%nat; destruct (card_id c =? b)%nat; simpl;
    by rewrite ?orb_true_r, ?orb_false_r.
Qed.

(** Marking two unmatched cards adds two to the number of matched cards. *)
Lemma filter_marked a b cs :
  a <> b ->
  length (filter (fun c => isMatched c = true) (map (markMatched a b) cs))
  = (length (filter (fun c => isMatched c = true) cs)
     + length (filter (fun c => isMatched c = false /\ card_id c = a) cs)
     + length (filter (fun c => isMatched c = false /\ card_id c = b) cs))%nat.
Proof.
  intros Hab. induction cs as [|c cs IH]; [done|]. cbn [map].
  rewrite !filter_cons, markMatched_matched.
  destruct (Nat.eqb_spec (card_id c) a), (Nat.eqb_spec (card_id c) b),
    (isMatched c) eqn:E; cbn [orb];
    repeat case_decide; cbn [length]; rewrite ?IH; try lia; naive_solver.
Qed.

Lemma filter_no_id x cs :
  x ∉ map card_id cs ->
  length (filter (fun c => isMatched c = false /\ card_id c = x) cs) = 0%nat.
Proof.
  induction cs as [|c cs IH]; [done|]. cbn [map]. intros Hx.
  apply not_elem_of_cons in Hx as [Hne Hx]. rewrite filter_cons.
  destruct (decide _) as [[_ Heq]|_]; [congruence | by apply IH].
Qed.

Lemma filter_one_id x cs :
  NoDup (map card_id cs) ->
  (exists c, findCard x cs = Some c /\ isMatched c = false) ->
  length (filter (fun c => isMatched c = false /\ card_id c = x) cs) = 1%nat.
Proof.
  intros Hnd (c & Hfind & Hc).
  induction cs as [|c' cs IH]; [done|]. cbn [map] in Hnd. simpl in Hfind.
  apply NoDup_cons in Hnd as [Hnotin Hnd]. rewrite filter_cons.
  destruct (Nat.eqb_spec (card_id c') x) as [Heq|Hne].
  - injection Hfind as ->. rewrite decide_True by done. cbn [length].
    rewrite filter_no_id; [done | by rewrite <- Heq].
  - destruct (decide _) as [[_ Heq]|_]; [congruence | by apply IH].
Qed.

Lemma all_matched cs :
  length (filter (fun c => isMatched c = true) cs) = length cs ->
  Forall (fun c => isMatched c = true) cs.
Proof.
  intros Hlen. apply Forall_forall. intros c Hc.
  destruct (isMatched c) eqn:E; [done|].
  assert (length (filter (fun c => isMatched c = true) cs) < length cs)%nat.
  { apply (length_filter_lt _ cs c Hc). congruence. }
  lia.
Qed.


(** *** The invariant of a session *)

Lemma accepted_spec i s :
  accepted i s = true ->
  (exists c, findCard i (cards s) = Some c /\ isMatched c = false)
  /\ (length (flippedIds s) < 2)%nat
  /\ existsb (Nat.eqb i) (flippedIds s) = false.
Proof.
  unfold accepted, handleCardClick. intros H.
  apply andb_true_iff in H as [Hb H].
  apply hasButton_find in Hb as [c Hc]. rewrite Hc in H.
  destruct (2 <=? length (flippedIds s))%nat eqn:Hlen; [done|].
  apply Nat.leb_gt in Hlen.
  destruct (existsb (Nat.eqb i) (flippedIds s)); [done|].
  destruct (isMatched c) eqn:Hm; [done|]. eauto.
Qed.

Lemma ids_NoDup s : session_ok s -> NoDup (map card_id (cards s)).
Proof. intros Hok. rewrite (ok_ids s Hok). apply NoDup_seq. Qed.

(** While a card is unmatched the game is not won. *)
Lemma unmatched_not_won s c :
  session_ok s -> c ∈ cards s -> isMatched c = false -> won s = false.
Proof.
  intros Hok Hc Hm. unfold won.
  assert (matchedCards s < length (cards s))%nat as Hlt.
  { apply (length_filter_lt _ _ c Hc). congruence. }
  pose proof (ok_matches s Hok).
  destruct (Z.eqb_spec (2 * matches s) (Z.of_nat (length (cards s))));
    [lia | by rewrite andb_false_r].
Qed.

Lemma accepted_not_won i s :
  session_ok s -> accepted i s = true -> won s = false.
Proof.
  intros Hok Hacc.
  destruct (accepted_spec i s Hacc) as ((c & Hfind & Hm) & _).
  apply findCard_Some in Hfind as [Hin _]. by eapply unmatched_not_won.
Qed.

Lemma not_won_quiet s :
  session_ok s -> won s = false -> gameOver s = [] /\ calls s = [].
Proof. intros Hok Hw. pose proof (ok_over s Hok) as H. by rewrite Hw in H. Qed.

Lemma existsb_eqb_elem (i : nat) (l : list nat) :
  existsb (Nat.eqb i) l = true <-> i ∈ l.
Proof.
  rewrite existsb_exists. split.
  - intros (x & Hin & Heq). apply Nat.eqb_eq in Heq as ->.
    by apply list_elem_of_In.
  - intros Hin. exists i. split; [by apply list_elem_of_In|].
    apply Nat.eqb_refl.
Qed.

Lemma turnedFirst_ok i s :
  session_ok s -> accepted i s = true -> flippedIds s = [] ->
  session_ok (turnedFirst i s).
Proof.
  intros Hok Hacc Hf.
  pose proof (accepted_not_won i s Hok Hacc) as Hw.
  destruct (accepted_spec i s Hacc) as ((c & Hfind & Hm) & _ & _).
  destruct (not_won_quiet s Hok Hw) as [Hg Hc].
  split; unfold turnedFirst; cbn [cards flippedIds matches moves now
                                  flipBack gameOver calls].
  - rewrite map_ids, length_map by apply faceUp_id. apply Hok.
  - unfold matchedCards. cbn [cards].
    rewrite filter_matched by apply faceUp_matched. apply Hok.
  - apply Hok.
  - apply Forall_map. pose proof (ok_faces s Hok) as Hfaces.
    rewrite Hf in Hfaces. eapply Forall_impl; [exact Hfaces|].
    intros c' Hc'. cbn [existsb] in *. rewrite faceUp_id, faceUp_matched.
    unfold faceUp.
    destruct (card_id c' =? i)%nat; simpl; [by rewrite orb_true_r|].
    by rewrite Hc', !orb_false_r.
  - repeat constructor. exists (faceUp i c).
    rewrite findCard_map by apply faceUp_id. rewrite Hfind.
    by rewrite faceUp_matched.
  - apply NoDup_singleton.
  - done.
  - unfold won. cbn [cards matches]. rewrite length_map.
    fold (won s). by rewrite Hw.
Qed.


Lemma mismatchedPair_not_won a i s :
  won s = false ->
  mismatchedPair a i s
  = mkState (config s) (map (faceUp i) (cards s)) [a; i] (matches s)
            (moves s + 1) (now s) (Some (now s + 1000, a, i)%nat)
            (gameOver s) (calls s).
Proof.
  intros Hw. unfold mismatchedPair. rewrite gameOverCheck_won.
  unfold won in *. cbn [cards matches]. by rewrite length_map, Hw.
Qed.

Lemma mismatchedPair_ok a i s :
  session_ok s -> accepted i s = true -> flippedIds s = [a] ->
  sameContent (findCard a (map (faceUp i) (cards s)))
              (findCard i (map (faceUp i) (cards s))) = false ->
  session_ok (mismatchedPair a i s).
Proof.
  intros Hok Hacc Hf Hdiff.
  pose proof (accepted_not_won i s Hok Hacc) as Hw.
  destruct (accepted_spec i s Hacc) as ((c & Hfind & Hm) & _ & Hnew).
  destruct (not_won_quiet s Hok Hw) as [Hg Hc].
  rewrite mismatchedPair_not_won by done.
  rewrite Hf in Hnew. cbn [existsb] in Hnew.
  rewrite orb_false_r in Hnew. apply Nat.eqb_neq in Hnew.
  split; cbn [cards flippedIds matches moves now flipBack gameOver calls].
  - rewrite map_ids, length_map by apply faceUp_id. apply Hok.
  - unfold matchedCards. cbn [cards].
    rewrite filter_matched by apply faceUp_matched. apply Hok.
  - pose proof (ok_moves s Hok). lia.
  - apply Forall_map. pose proof (ok_faces s Hok) as Hfaces.
    rewrite Hf in Hfaces. eapply Forall_impl; [exact Hfaces|].
    intros c' Hc'. cbn [existsb] in *. rewrite faceUp_id, faceUp_matched.
    unfold faceUp.
    destruct (card_id c' =? i)%nat; simpl; [by rewrite !orb_true_r|].
    by rewrite Hc', !orb_false_r.
  - pose proof (ok_flipped s Hok) as Hfl. rewrite Hf in Hfl.
    apply Forall_cons in Hfl as [(ca & Hfa & Hma) _].
    repeat constructor.
    + exists (faceUp i ca). rewrite findCard_map by apply faceUp_id.
      by rewrite Hfa, faceUp_matched.
    + exists (faceUp i c). rewrite findCard_map by apply faceUp_id.
      by rewrite Hfind, faceUp_matched.
  - apply NoDup_cons. split; [|apply NoDup_singleton].
    intros Hin. apply list_elem_of_singleton in Hin. congruence.
  - exists (now s + 1000)%nat. split; [done|]. split; [lia|done].
  - unfold won in *. cbn [cards matches]. by rewrite length_map, Hw.
Qed.

Lemma isFlipped_markMatched a b c :
  isFlipped (markMatched a b c) = isFlipped c.
Proof. unfold markMatched. by destruct (_ || _). Qed.

Lemma isFlipped_faceUp i c :
  isFlipped (faceUp i c) = isFlipped c || (card_id c =? i)%nat.
Proof.
  unfold faceUp. destruct (_ =? _)%nat; simpl;
    by rewrite ?orb_true_r, ?orb_false_r.
Qed.

Lemma matchedPair_ok a i s :
  session_ok s -> accepted i s = true -> flippedIds s = [a] ->
  session_ok (matchedPair a i s).
Proof.
  intros Hok Hacc Hf.
  pose proof (accepted_not_won i s Hok Hacc) as Hw.
  destruct (accepted_spec i s Hacc) as ((c & Hfind & Hm) & _ & Hnew).
  destruct (not_won_quiet s Hok Hw) as [Hg Hc].
  rewrite Hf in Hnew. cbn [existsb] in Hnew.
  rewrite orb_false_r in Hnew. apply Nat.eqb_neq in Hnew.
  pose proof (ok_flipped s Hok) as Hfl. rewrite Hf in Hfl.
  apply Forall_cons in Hfl as [(ca & Hfa & Hma) _].
  unfold matchedPair. rewrite gameOverCheck_won.
  set (s2 := mkState _ _ _ _ _ _ _ _ _).
  assert (Hcount : Z.of_nat (matchedCards s2) = 2 * matches s2).
  { unfold matchedCards, s2. cbn [cards matches].
    rewrite filter_marked by done.
    rewrite filter_matched by apply faceUp_matched.
    rewrite !filter_one_id.
    - pose proof (ok_matches s Hok). unfold matchedCards in *. lia.
    - rewrite map_ids by apply faceUp_id. by apply ids_NoDup.
    - exists (faceUp i c). rewrite findCard_map by apply faceUp_id.
      by rewrite Hfind, faceUp_matched.
    - rewrite map_ids by apply faceUp_id. by apply ids_NoDup.
    - exists (faceUp i ca). rewrite findCard_map by apply faceUp_id.
      by rewrite Hfa, faceUp_matched. }
  assert (Hfaces : Forall (fun c => isFlipped c = isMatched c || false)
                          (cards s2)).
  { unfold s2. cbn [cards]. apply Forall_map, Forall_map.
    pose proof (ok_faces s Hok) as Hfaces.
    rewrite Hf in Hfaces. eapply Forall_impl; [exact Hfaces|].
    intros c' Hc'. cbn [existsb] in *.
    rewrite isFlipped_markMatched, isFlipped_faceUp, markMatched_matched.
    rewrite faceUp_id, faceUp_matched, Hc'.
    destruct (isMatched c'), (card_id c' =? a)%nat, (card_id c' =? i)%nat;
      done. }
  assert (Hids : map card_id (cards s2) = seq 0 (length (cards s2))).
  { unfold s2. cbn [cards].
    rewrite map_ids by apply markMatched_id.
    rewrite map_ids by apply faceUp_id.
    rewrite !length_map. apply Hok. }
  assert (Hmoves : 0 <= matches s2 <= moves s2).
  { unfold s2. cbn [matches moves]. pose proof (ok_moves s Hok). lia. }
  destruct (won s2) eqn:Hw2.
  - split; cbn [cards flippedIds matches moves now flipBack gameOver calls];
      try done; try constructor.
    unfold won in *. cbn [cards matches]. rewrite Hw2.
    split; [done|]. left. exists (now s + 1000)%nat.
    unfold s2. cbn [gameOver now calls]. rewrite Hg, Hc.
    split; [done|]. split; [lia|done].
  - split; try done; try constructor.
    rewrite Hw2. done.
Qed.


Lemma pending_flipBack s deadline a b :
  session_ok s -> flipBack s = Some (deadline, a, b) ->
  flippedIds s = [a; b]
  /\ (now s < deadline <= now s + 1000)%nat
  /\ sameContent (findCard a (cards s)) (findCard b (cards s)) = false.
Proof.
  intros Hok Hfb. pose proof (ok_pending s Hok) as Hp.
  destruct (flippedIds s) as [|x [|y [|z l]]]; try congruence; [|done].
  destruct Hp as (d & Hd & Hnow & Hdiff). rewrite Hfb in Hd.
  by injection Hd as -> -> ->.
Qed.

Lemma two_turned_not_won s a b :
  session_ok s -> flippedIds s = [a; b] -> won s = false.
Proof.
  intros Hok Hf. pose proof (ok_flipped s Hok) as Hfl. rewrite Hf in Hfl.
  apply Forall_cons in Hfl as [(ca & Hfa & Hma) _].
  apply findCard_Some in Hfa as [Hin _]. by eapply unmatched_not_won.
Qed.

Lemma turnedBack_ok deadline a b dt s :
  session_ok s -> flipBack s = Some (deadline, a, b) ->
  (deadline <= now s + dt)%nat ->
  session_ok (set_now (now s + dt)
                (fireGameOver (now s + dt) (turnedBack deadline a b s))).
Proof.
  intros Hok Hfb Hdue.
  destruct (pending_flipBack s deadline a b Hok Hfb) as (Hf & Hnow & Hdiff).
  pose proof (two_turned_not_won s a b Hok Hf) as Hw.
  destruct (not_won_quiet s Hok Hw) as [Hg Hc].
  unfold set_now, fireGameOver, turnedBack.
  cbn [config cards flippedIds matches moves now flipBack gameOver calls].
  rewrite Hg, Hc. cbn [filter fmap list_fmap app].
  split; cbn [cards flippedIds matches moves now flipBack gameOver calls].
  - rewrite map_ids, length_map by apply faceDown_id. apply Hok.
  - unfold matchedCards. cbn [cards].
    rewrite filter_matched by apply faceDown_matched. apply Hok.
  - apply Hok.
  - apply Forall_map. pose proof (ok_faces s Hok) as Hfaces.
    rewrite Hf in Hfaces. apply Forall_forall. intros c' Hin.
    rewrite Forall_forall in Hfaces. specialize (Hfaces c' Hin).
    cbn [existsb] in *. rewrite faceDown_matched. unfold faceDown.
    pose proof (ok_flipped s Hok) as Hfl. rewrite Hf in Hfl.
    apply Forall_cons in Hfl as [(ca & Hfa & Hma) Hfl].
    apply Forall_cons in Hfl as [(cb & Hfb' & Hmb) _].
    pose proof (findCard_unique _ c' (ids_NoDup s Hok) Hin) as Hu.
    destruct (Nat.eqb_spec (card_id c') a) as [Ha|Ha];
      [|destruct (Nat.eqb_spec (card_id c') b) as [Hb|Hb]]; simpl.
    + rewrite Ha, Hfa in Hu. injection Hu as <-. by rewrite Hma.
    + rewrite Hb, Hfb' in Hu. injection Hu as <-. by rewrite Hmb.
    + rewrite Hfaces. by rewrite !orb_false_r.
  - constructor.
  - constructor.
  - done.
  - unfold won in *. cbn [cards matches]. by rewrite length_map, Hw.
Qed.

Lemma waiting_ok dt s :
  session_ok s ->
  match flipBack s with
  | Some (deadline, _, _) => (now s + dt < deadline)%nat
  | None => True
  end ->
  session_ok (set_now (now s + dt) (fireGameOver (now s + dt) s)).
Proof.
  intros Hok Hearly.
  unfold set_now, fireGameOver.
  cbn [config cards flippedIds matches moves now flipBack gameOver calls].
  pose proof (ok_over s Hok) as Hover.
  split; cbn [cards flippedIds matches moves now flipBack gameOver calls];
    try apply Hok.
  - pose proof (ok_pending s Hok) as Hp.
    destruct (flippedIds s) as [|x [|y [|z l]]]; try done.
    destruct Hp as (d & Hd & Hnow & Hdiff). exists d.
    rewrite Hd in Hearly. split; [done|]. split; [lia|done].
  - unfold won in *. cbn [cards matches].
    change (finalScore (mkState _ _ _ _ _ _ _ _ _)) with (finalScore s).
    destruct (_ && _).
    + destruct Hover as [Hf [(d & Hg & Hnow & Hc)|[Hg Hc]]];
        (split; [done|]); rewrite Hg, Hc.
      * rewrite !filter_cons, !filter_nil. cbn [fst].
        destruct (decide (d <= now s + dt)%nat) as [Hd|Hd].
        -- right. rewrite decide_False by lia. done.
        -- left. rewrite decide_True by lia. exists d.
           split; [done|]. split; [lia|done].
      * right. done.
    + destruct Hover as [-> ->]. done.
Qed.

Lemma memory_step_ok s e : session_ok s -> session_ok (step s e).
Proof.
  intros Hok. destruct e as [i|dt].
  - rewrite step_click. destruct (accepted i s) eqn:Hacc; [|done].
    destruct (accepted_spec i s Hacc) as (_ & Hlen & _).
    destruct (flippedIds s) as [|a [|b l]] eqn:Hf; [| |simpl in Hlen; lia].
    + by apply turnedFirst_ok.
    + destruct (sameContent _ _) eqn:Hsame.
      * by apply matchedPair_ok.
      * by apply mismatchedPair_ok.
  - rewrite step_wait.
    destruct (flipBack s) as [[[deadline a] b]|] eqn:Hfb.
    + destruct (Nat.leb_spec deadline (now s + dt)).
      * by apply turnedBack_ok.
      * apply waiting_ok; [done|]. by rewrite Hfb.
    + apply waiting_ok; [done|]. by rewrite Hfb.
Qed.

Lemma memory_mount_ok shuffle cfg : session_ok (mount shuffle cfg).
Proof.
  rewrite mount_state. set (l := shuffle _).
  assert (Hfresh : Forall (fun c => isFlipped c = false /\ isMatched c = false)
                          (imap (fun index item => mkCard index item false false) l)).
  { apply Forall_lookup. intros i c. rewrite list_lookup_imap.
    destruct (l !! i); [|done]. by intros [= <-]. }
  split; cbn [cards flippedIds matches moves now flipBack gameOver calls].
  - rewrite length_imap. apply deck_ids.
  - unfold matchedCards. cbn [cards].
    induction Hfresh as [|c cs [_ Hc] _ IH]; [done|].
    rewrite filter_cons. destruct (decide _); [congruence | done].
  - lia.
  - eapply Forall_impl; [exact Hfresh|]. by intros c [-> ->].
  - constructor.
  - constructor.
  - done.
  - unfold won. cbn [cards matches]. by destruct (length _).
Qed.

Lemma memory_run_ok shuffle cfg evs : session_ok (run (mount shuffle cfg) evs).
Proof.
  unfold run. induction evs as [|e evs IH] using rev_ind.
  - apply memory_mount_ok.
  - rewrite foldl_app. simpl. by apply memory_step_ok.
Qed.


(** *** Counters, timers and reports *)

Lemma gameOverCheck_fields s :
  config (gameOverCheck s) = config s /\ cards (gameOverCheck s) = cards s
  /\ flippedIds (gameOverCheck s) = flippedIds s
  /\ matches (gameOverCheck s) = matches s
  /\ moves (gameOverCheck s) = moves s /\ now (gameOverCheck s) = now s
  /\ flipBack (gameOverCheck s) = flipBack s
  /\ calls (gameOverCheck s) = calls s.
Proof. rewrite gameOverCheck_won. by destruct (won s). Qed.

(** What an event does to the deck size, the configuration and the
    counters. *)
Lemma step_fields s e :
  config (step s e) = config s
  /\ length (cards (step s e)) = length (cards s)
  /\ moves (step s e) = moves s + (if evaluates s e then 1 else 0)
  /\ (matches s <= matches (step s e)).
Proof.
  destruct e as [i|dt].
  - rewrite step_click. unfold evaluates.
    destruct (accepted i s) eqn:Hacc; cbn [andb]; [|by rewrite Z.add_0_r].
    destruct (flippedIds s) as [|a [|b l]]; cbn [length Nat.eqb];
      [| |by rewrite Z.add_0_r].
    + unfold turnedFirst. cbn [config cards moves matches].
      by rewrite length_map, Z.add_0_r.
    + destruct (sameContent _ _).
      * unfold matchedPair.
        destruct (gameOverCheck_fields
                    (mkState (config s)
                       (map (markMatched a i) (map (faceUp i) (cards s))) []
                       (matches s + 1) (moves s + 1) (now s) None
                       (gameOver s) (calls s)))
          as (-> & -> & _ & -> & -> & _).
        cbn [config cards moves matches]. rewrite !length_map.
        repeat split; lia.
      * unfold mismatchedPair.
        destruct (gameOverCheck_fields
                    (mkState (config s) (map (faceUp i) (cards s)) [a; i]
                       (matches s) (moves s + 1) (now s)
                       (Some (now s + 1000, a, i)%nat)
                       (gameOver s) (calls s)))
          as (-> & -> & _ & -> & -> & _).
        cbn [config cards moves matches]. rewrite !length_map.
        repeat split; lia.
  - rewrite step_wait. unfold evaluates, set_now, fireGameOver.
    cbn [config cards moves matches]. rewrite Z.add_0_r.
    destruct (flipBack s) as [[[deadline a] b]|]; [|done].
    destruct (deadline <=? now s + dt)%nat; [|done].
    unfold turnedBack. cbn [config cards moves matches].
    by rewrite length_map.
Qed.

Lemma run_cons s e evs : run s (e :: evs) = run (step s e) evs.
Proof. done. Qed.

Lemma run_fields s evs :
  config (run s evs) = config s
  /\ length (cards (run s evs)) = length (cards s)
  /\ moves (run s evs) = moves s + evaluations s evs.
Proof.
  revert s. induction evs as [|e evs IH]; intros s.
  - simpl. by rewrite Z.add_0_r.
  - rewrite run_cons. destruct (IH (step s e)) as (-> & -> & ->).
    destruct (step_fields s e) as (-> & -> & -> & _).
    cbn [evaluations]. repeat split. lia.
Qed.

(** The game-over condition holds exactly when the deck is not empty and
    all its cards are matched. *)
Lemma won_complete s :
  session_ok s ->
  won s = true <-> (cards s <> [] /\ matchedCards s = length (cards s)).
Proof.
  intros Hok. pose proof (ok_matches s Hok) as Hm. unfold won.
  rewrite andb_true_iff, Nat.ltb_lt, Z.eqb_eq. split.
  - intros [Hpos Heq]. split; [|lia].
    intros Hnil. rewrite Hnil in Hpos. simpl in Hpos. lia.
  - intros [Hne Heq]. split; [|lia].
    destruct (cards s); [done | simpl; lia].
Qed.

(** The Memory game calls [onGameOver] at most once in a session, with a
    score that is not negative. *)
Lemma memory_calls shuffle cfg evs :
  (length (calls (run (mount shuffle cfg) evs)) <= 1)%nat
  /\ Forall (fun sc => 0 <= sc) (calls (run (mount shuffle cfg) evs)).
Proof.
  pose proof (ok_over _ (memory_run_ok shuffle cfg evs)) as Hover.
  destruct (won _).
  - destruct Hover as [_ [(d & _ & _ & ->)|[_ ->]]]; simpl.
    + split; [lia | constructor].
    + split; [lia|]. repeat constructor. unfold finalScore. lia.
  - destruct Hover as [_ ->]. split; [simpl; lia | constructor].
Qed.


(** An event leaves the number of matched cards as it is, unless it is the
    click that completes a pair. *)
Lemma step_matchedCards s e :
  session_ok s ->
  matchedCards (step s e) = matchedCards s
  \/ exists a i, step s e = matchedPair a i s /\ won s = false.
Proof.
  intros Hok. destruct e as [i|dt].
  - rewrite step_click. destruct (accepted i s) eqn:Hacc; [|by left].
    destruct (flippedIds s) as [|a [|b l]]; [| |by left].
    + left. unfold matchedCards, turnedFirst. cbn [cards].
      by rewrite filter_matched by apply faceUp_matched.
    + destruct (sameContent _ _).
      * right. exists a, i. split; [done|]. by eapply accepted_not_won.
      * left. rewrite mismatchedPair_not_won by by eapply accepted_not_won.
        unfold matchedCards. cbn [cards].
        by rewrite filter_matched by apply faceUp_matched.
  - left. rewrite step_wait. unfold matchedCards, set_now, fireGameOver.
    cbn [cards].
    destruct (flipBack s) as [[[deadline a] b]|]; [|done].
    destruct (deadline <=? now s + dt)%nat; [|done].
    unfold turnedBack. cbn [cards].
    by rewrite filter_matched by apply faceDown_matched.
Qed.

(** C6.  In every session the number of matched cards is twice the match
    counter and [moves] is the number of two-card evaluations performed.
    When the deck is not empty and the matched cards are the full deck,
    exactly one report of [max(0, 1000 - moves * 20)] exists: it is
    either pending, due at most one second ahead, or delivered by one
    call of [onGameOver]; otherwise (cards are left unmatched, or the
    deck is empty) nothing is pending and nothing was reported.  The
    event that completes the deck arms the timeout exactly 1000 ms ahead;
    while the clock is before that deadline no event makes the call or
    disarms the timeout, and the call is made when the clock reaches the
    deadline. *)
Theorem all_matched_reports_once shuffle cfg evs :
  let s := run (mount shuffle cfg) evs in
  Z.of_nat (matchedCards s) = 2 * matches s
  /\ moves s = evaluations (mount shuffle cfg) evs
  /\ (cards s <> [] -> matchedCards s = length (cards s) ->
      (exists deadline,
          gameOver s = [(deadline, Z.max 0 (1000 - moves s * 20))]
          /\ (now s < deadline <= now s + 1000)%nat /\ calls s = [])
      \/ (gameOver s = [] /\ calls s = [Z.max 0 (1000 - moves s * 20)]))
  /\ (~ (cards s <> [] /\ matchedCards s = length (cards s)) ->
      gameOver s = [] /\ calls s = [])
  /\ (forall e,
        matchedCards s <> length (cards s) ->
        matchedCards (step s e) = length (cards (step s e)) ->
        gameOver (step s e)
        = [((now s + 1000)%nat, Z.max 0 (1000 - moves (step s e) * 20))]
        /\ calls (step s e) = [])
  /\ (forall e deadline sc,
        gameOver s = [(deadline, sc)] ->
        match e with
        | Wait dt => (now s + dt < deadline)%nat
        | Click _ => True
        end ->
        gameOver (step s e) = [(deadline, sc)] /\ calls (step s e) = [])
  /\ (forall dt deadline sc,
        gameOver s = [(deadline, sc)] ->
        (deadline <= now s + dt)%nat ->
        gameOver (step s (Wait dt)) = []
        /\ calls (step s (Wait dt)) = [sc]).
Proof.
  intros s. pose proof (memory_run_ok shuffle cfg evs) as Hok. fold s in Hok.
  pose proof (ok_over s Hok) as Hover.
  pose proof (won_complete s Hok) as Hwon.
  split; [apply Hok|]. split.
  { unfold s. destruct (run_fields (mount shuffle cfg) evs) as (_ & _ & ->).
    rewrite mount_state. cbn [moves]. lia. }
  split.
  { intros Hne Hall. rewrite (proj2 Hwon) in Hover by done.
    by destruct Hover as [_ Hover]. }
  split.
  { intros Hnot. destruct (won s); [|done]. destruct Hnot. by apply Hwon. }
  split.
  { intros e Hnot Hall.
    pose proof (memory_step_ok s e Hok) as Hok'.
    destruct (step_matchedCards s e Hok) as [Hsame|(a & i & Hstep & Hw)].
    { destruct (step_fields s e) as (_ & Hlen & _). congruence. }
    destruct (not_won_quiet s Hok Hw) as [Hg Hc].
    assert (Hw' : won (step s e) = true).
    { apply (won_complete _ Hok'). split; [|done].
      intros Hnil. destruct (step_fields s e) as (_ & Hlen & _).
      rewrite Hnil in Hlen. simpl in Hlen.
      rewrite Hnil in Hall. simpl in Hall.
      pose proof (length_filter (fun c => isMatched c = true) (cards s)).
      unfold matchedCards in Hnot. lia. }
    revert Hw'. rewrite Hstep. unfold matchedPair.
    rewrite gameOverCheck_won.
    set (s2 := mkState _ _ _ _ _ _ _ _ _).
    destruct (won s2) eqn:Hw2.
    - intros _. cbn [gameOver calls moves]. unfold s2 at 1 3.
      cbn [gameOver calls now]. by rewrite Hg, Hc.
    - congruence. }
  assert (Hpending : forall deadline sc,
             gameOver s = [(deadline, sc)] ->
             won s = true /\ calls s = [] /\ flipBack s = None).
  { intros deadline sc Hg.
    assert (Hw : won s = true).
    { destruct (won s) eqn:Hw; [done|].
      destruct (not_won_quiet s Hok Hw) as [Hg' _]. congruence. }
    rewrite Hw in Hover.
    destruct Hover as [Hf [(d & Hg' & _ & Hc)|[Hg' _]]]; [|congruence].
    pose proof (ok_pending s Hok) as Hp. by rewrite Hf in Hp. }
  split.
  { intros e deadline sc Hg Hbefore.
    destruct (Hpending deadline sc Hg) as (Hw & Hc & Hp).
    destruct e as [i|dt].
    - rewrite step_click. destruct (accepted i s) eqn:Hacc; [|done].
      pose proof (accepted_not_won i s Hok Hacc). congruence.
    - rewrite step_wait, Hp. unfold set_now, fireGameOver.
      cbn [gameOver calls]. rewrite Hg, Hc.
      rewrite !filter_cons, !filter_nil. cbn [fst].
      rewrite decide_True by lia. by rewrite decide_False by lia. }
  intros dt deadline sc Hg Hdue.
  destruct (Hpending deadline sc Hg) as (Hw & Hc & Hp).
  rewrite step_wait, Hp. unfold set_now, fireGameOver.
  cbn [gameOver calls]. rewrite Hg, Hc.
  rewrite !filter_cons, !filter_nil. cbn [fst].
  rewrite decide_False by lia. by rewrite decide_True by lia.
Qed.


Lemma fireGameOver_idle t s : gameOver s = [] -> fireGameOver t s = s.
Proof.
  intros Hg. unfold fireGameOver. rewrite Hg.
  rewrite !filter_nil. cbn [fmap list_fmap]. rewrite app_nil_r.
  rewrite <- Hg. by destruct s.
Qed.

(** C7.  Whenever two cards are face-up and unresolved, their contents
    differ, a click on any card changes nothing, and the timeout that
    turns them back is pending, due at most one second ahead: until its
    deadline only the clock moves, and when the clock reaches it both
    cards are face-down again and no card is turned.  The timeout is set
    exactly 1000 ms after the click that turned the second card; and in
    every state the face-up cards that are not matched are the turned
    ones, at most two. *)
Theorem mismatch_turns_back shuffle cfg evs :
  let s := run (mount shuffle cfg) evs in
  (forall a b,
      flippedIds s = [a; b] ->
      sameContent (findCard a (cards s)) (findCard b (cards s)) = false
      /\ (forall i, step s (Click i) = s)
      /\ exists deadline,
           flipBack s = Some (deadline, a, b)
           /\ (now s < deadline <= now s + 1000)%nat
           /\ (forall dt,
                 (now s + dt < deadline)%nat ->
                 step s (Wait dt) = set_now (now s + dt) s)
           /\ (forall dt,
                 (deadline <= now s + dt)%nat ->
                 flippedIds (step s (Wait dt)) = []
                 /\ Forall (fun c => card_id c = a \/ card_id c = b ->
                                     isFlipped c = false)
                           (cards (step s (Wait dt)))))
  /\ (forall a b i,
        flippedIds s = [a] ->
        flippedIds (step s (Click i)) = [a; b] ->
        flipBack (step s (Click i)) = Some ((now s + 1000)%nat, a, b))
  /\ (length (flippedIds s) <= 2)%nat
  /\ Forall (fun c => isFlipped c = true -> isMatched c = false ->
                      card_id c ∈ flippedIds s)
            (cards s).
Proof.
  intros s. pose proof (memory_run_ok shuffle cfg evs) as Hok.
  change (session_ok s) in Hok.
  split; [|split; [|split]].
  - intros a b Hf.
    pose proof (ok_pending s Hok) as Hp. rewrite Hf in Hp.
    destruct Hp as (deadline & Hfb & Hnow & Hdiff).
    pose proof (two_turned_not_won s a b Hok Hf) as Hw.
    destruct (not_won_quiet s Hok Hw) as [Hg Hc].
    split; [done|]. split.
    { intros i. rewrite step_click.
      replace (accepted i s) with false; [done|].
      unfold accepted, handleCardClick. rewrite Hf. cbn [length Nat.leb].
      by rewrite andb_false_r. }
    exists deadline. split; [done|]. split; [done|]. split.
    + intros dt Hearly. rewrite step_wait, Hfb.
      destruct (Nat.leb_spec deadline (now s + dt)); [lia|].
      by rewrite fireGameOver_idle.
    + intros dt Hdue. rewrite step_wait, Hfb.
      destruct (Nat.leb_spec deadline (now s + dt)); [|lia].
      unfold set_now, fireGameOver, turnedBack. cbn [flippedIds cards].
      split; [done|]. apply Forall_map, Forall_forall.
      intros c _ Hid. rewrite faceDown_id in Hid. unfold faceDown.
      destruct Hid as [<-|<-]; rewrite Nat.eqb_refl;
        by rewrite ?orb_true_r.
  - intros a b i Hf Hf'. revert Hf'. rewrite step_click.
    destruct (accepted i s) eqn:Hacc; [|by rewrite Hf].
    rewrite Hf. destruct (sameContent _ _).
    + unfold matchedPair.
      destruct (gameOverCheck_fields
                  (mkState (config s)
                     (map (markMatched a i) (map (faceUp i) (cards s))) []
                     (matches s + 1) (moves s + 1) (now s) None
                     (gameOver s) (calls s)))
        as (_ & _ & -> & _). done.
    + rewrite mismatchedPair_not_won by by eapply accepted_not_won.
      cbn [flippedIds flipBack]. by intros [= <-].
  - pose proof (ok_pending s Hok) as Hp.
    destruct (flippedIds s) as [|x [|y [|z l]]]; simpl; (done || lia).
  - pose proof (ok_faces s Hok) as Hfaces.
    eapply Forall_impl; [exact Hfaces|]. intros c Hc Hup Hm.
    cbv beta in Hc. rewrite Hup, Hm in Hc.
    apply existsb_eqb_elem. by symmetry.
Qed.


(** C10.  With an empty asset list the deck is empty and stays empty, the
    game-over check (which asks for a non-empty deck) never arms its
    timeout, and [onGameOver] is never called, whatever the events of the
    session: the session does not end on its own. *)
Theorem empty_assets_never_end shuffle cfg evs :
  (forall l, shuffle l ≡ₚ l) ->
  assets cfg = [] ->
  let s := run (mount shuffle cfg) evs in
  cards s = [] /\ gameOverCheck s = s /\ gameOver s = [] /\ calls s = [].
Proof.
  intros Hperm Hempty s. pose proof (memory_run_ok shuffle cfg evs) as Hok.
  change (session_ok s) in Hok.
  assert (Hcards : cards s = []).
  { apply length_zero_iff_nil. unfold s.
    destruct (run_fields (mount shuffle cfg) evs) as (_ & -> & _).
    rewrite mount_state, Hempty. cbn [cards take app].
    rewrite length_imap. by rewrite (Hperm []). }
  assert (Hw : won s = false) by (unfold won; by rewrite Hcards).
  split; [done|]. split; [by rewrite gameOverCheck_won, Hw|].
  by apply not_won_quiet.
Qed.

Lemma empty_assets_never_end_witness :
  calls (run (mount Scenario.backwards Scenario.config_empty)
             [Click 0; Wait 4000; Click 3; Wait 3000]) = [].
Proof.
  apply (empty_assets_never_end Scenario.backwards Scenario.config_empty
           [Click 0; Wait 4000; Click 3; Wait 3000] backwards_permutes).
  reflexivity.
Defined.

Lemma all_matched_reports_once_witness :
  let s := run (mount Scenario.backwards Scenario.config_single)
               [Click 0; Click 1] in
  (exists deadline,
      gameOver s = [(deadline, Z.max 0 (1000 - moves s * 20))]
      /\ (now s < deadline <= now s + 1000)%nat /\ calls s = [])
  \/ (gameOver s = [] /\ calls s = [Z.max 0 (1000 - moves s * 20)]).
Proof.
  intros s.
  destruct (all_matched_reports_once Scenario.backwards
              Scenario.config_single [Click 0; Click 1])
    as (_ & _ & H & _).
  apply H; [by vm_compute | by vm_compute].
Defined.

(** On the empty deck the matched cards are the full deck from the start,
    and nothing is ever scheduled or reported: the game-over check asks
    for [cards.length > 0]. *)
Lemma empty_deck_reports_nothing :
  let s := mount Scenario.backwards Scenario.config_empty in
  matchedCards s = length (cards s)
  /\ gameOver s = [] /\ calls s = []
  /\ gameOver (run s [Wait 1000]) = [] /\ calls (run s [Wait 1000]) = []
  /\ calls (run s [Wait 1000; Click 0; Wait 4000]) = [].
Proof. by vm_compute. Qed.

Lemma mismatch_turns_back_witness :
  let s := run (mount Scenario.backwards Scenario.config_two)
               [Click 0; Click 1] in
  sameContent (findCard 0 (cards s)) (findCard 1 (cards s)) = false
  /\ (forall i, step s (Click i) = s).
Proof.
  intros s.
  destruct (mismatch_turns_back Scenario.backwards Scenario.config_two
              [Click 0; Click 1]) as (H & _).
  destruct (H 0%nat 1%nat) as (Hdiff & Hclick & _); [by vm_compute|].
  by split.
Defined.

(** A whole session on a deck of two cards: the pair is found with one
    evaluation, and the score 980 is reported once, one second later. *)
Example two_card_session :
  let s := run (mount Scenario.backwards Scenario.config_single)
               [Click 0; Click 1] in
  calls s = [] /\ gameOver s = [(1000%nat, 980)]
  /\ calls (step s (Wait 999)) = []
  /\ calls (step s (Wait 1000)) = [980]
  /\ calls (run s [Wait 1000; Click 0; Wait 4000; Click 1]) = [980].
Proof. by vm_compute. Qed.

(** A mismatch on a deck of four cards: the two cards are face-up until
    the deadline and face-down after it. *)
Example mismatch_session :
  let s := run (mount Scenario.backwards Scenario.config_two)
               [Click 0; Click 1] in
  map isFlipped (cards s) = [true; true; false; false]
  /\ step s (Click 2) = s
  /\ map isFlipped (cards (step s (Wait 999))) = [true; true; false; false]
  /\ map isFlipped (cards (step s (Wait 1000)))
     = [false; false; false; false]
  /\ moves s = 1.
Proof. by vm_compute. Qed.

End MemoryFacts.

(** ** The configuration is read-only *)

Module ConfigFacts.

Lemma memory_run_config shuffle cfg evs :
  Memory.config (Memory.run (Memory.mount shuffle cfg) evs) = cfg.
Proof.
  destruct (MemoryFacts.run_fields (Memory.mount shuffle cfg) evs)
    as (-> & _).
  by rewrite MemoryFacts.mount_state.
Qed.

(** C9.  No mini-game writes to the configuration it receives: after any
    sequence of frames, timer events and input events of a Clicker, a
    Catcher or a Memory session the [config] object is the one that was
    passed in, with the same theme, assets and parameters.  (The Memory
    game sorts in place, but a fresh copy of the first eight assets.) *)
Theorem config_is_read_only (cfg : GameConfig) :
  (forall w h d evs,
      Clicker.config (Clicker.run (Clicker.mount cfg w h d) evs) = cfg)
  /\ (forall w h d evs,
        Catcher.config (Catcher.run (Catcher.mount cfg w h d) evs) = cfg)
  /\ (forall shuffle evs,
        Memory.config (Memory.run (Memory.mount shuffle cfg) evs) = cfg)
  /\ (forall shuffle,
        Memory.read 0 (Memory.buildDeck shuffle 0 [assets cfg]).2
        = assets cfg).
Proof.
  split; [|split; [|split]].
  - intros. apply ClickerFacts.clicker_run_config.
  - intros. apply CatcherFacts.catcher_run_config.
  - intros shuffle evs. apply memory_run_config.
  - intros shuffle. by rewrite MemoryFacts.buildDeck_heap.
Qed.

End ConfigFacts.

(** ** The fallback of the config-generation service *)

Module ServiceFacts.
Import Service.

Section Environment.

Variable generateContent : Request -> Result Response.
Variable JSON_parse : string -> Result Value.

Local Abbreviation generate :=
  (generateGameForMood generateContent JSON_parse).


(** Without a failure the parsed response is returned as it is. *)
Lemma generate_parsed (mood : string) response text value :
  generateContent (request mood) = Return response ->
  response_text response = Some text ->
  text <> "" ->
  JSON_parse text = Return value ->
  generate mood = Return value.
Proof.
  intros Hcall Htext Hne Hparse.
  unfold generateGameForMood, tryCatch, bind.
  rewrite Hcall, Htext. simpl.
  destruct (String.eqb_spec text ""); [done|].
  by rewrite Hparse.
Qed.



End Environment.


(** The asset literals of the fallback are those of the source, byte for
    byte (the second and the fourth start with U+F8FF). *)
Example fallback_asset_bytes :
  map String.length (assets fallback) = [7; 9; 14; 9; 8]%nat.
Proof. done. Qed.


End ServiceFacts.

(** ** Clicker: further properties *)

Module ClickerMore.
Import Clicker ClickerInv ClickerFacts.

(** *** What the handlers leave alone *)

Lemma handleClick_rest px py s :
  exists removed,
    entities s ≡ₚ entities (handleClick px py s) ++ removed
    /\ entities (handleClick px py s) `sublist_of` entities s
    /\ score (handleClick px py s) = score s + 10 * Z.of_nat (length removed)
    /\ scoreShown (handleClick px py s)
       = (if removed is [] then scoreShown s else score (handleClick px py s))
    /\ timeLeft (handleClick px py s) = timeLeft s
    /\ timerInterval (handleClick px py s) = timerInterval s
    /\ isRunning (handleClick px py s) = isRunning s
    /\ spawnId (handleClick px py s) = spawnId s
    /\ calls (handleClick px py s) = calls s
    /\ config (handleClick px py s) = config s.
Proof.
  destruct (isRunning s) eqn:Hrun.
  - destruct (handleClick_Tapped px py s Hrun)
      as (removed & Hperm & Hsub & _ & Hscore & Hshown & Hrest).
    exists removed. rewrite <- Hrest at 5 6 7 8 9 10. cbn. by rewrite Hrun.
  - exists []. unfold handleClick. rewrite Hrun. cbn.
    rewrite app_nil_r, Z.add_0_r. by rewrite Hrun.
Qed.

(** The callback of the update loop: the entity at the index is removed, or
    replaced by its grown and decayed self. *)
Lemma updateEntity_rest k ent s :
  (entities (updateEntity k ent s) = delete k (entities s)
   \/ exists ent',
       entities (updateEntity k ent s) = <[k := ent']> (entities s)
       /\ ent_id ent' = ent_id ent /\ ent_maxLife ent' = ent_maxLife ent
       /\ ent_r ent'
          = (if Qltb (ent_r ent) 40
             then ent_r ent + 2 * speedMultiplier (config s)
             else ent_r ent)%Q
       /\ ent_life ent' = (ent_life ent - 1 * speedMultiplier (config s))%Q)
  /\ mkState (config s) (width s) (height s)
             (entities (updateEntity k ent s)) (lastSpawn s) (isRunning s)
             (score s) (scoreShown s) (timeLeft s) (spawnId s)
             (timerInterval s) (calls s)
     = updateEntity k ent s.
Proof.
  unfold updateEntity. destruct (Qle_bool _ 0); cbn.
  - split; [|done]. left. apply delete_insert_same.
  - split; [|done]. right. by eexists (mkEntity _ _ _ _ _ _ _).
Qed.

Lemma spawn_rest time d s :
  (spawn time d s = s
   \/ exists ent,
       entities (spawn time d s) = entities s ++ [ent]
       /\ spawnId (spawn time d s) = S (spawnId s)
       /\ ent_id ent = spawnId s /\ ent_r ent = 0%Q
       /\ ent_life ent = 100%Q /\ ent_maxLife ent = 100%Q)
  /\ config (spawn time d s) = config s
  /\ score (spawn time d s) = score s
  /\ scoreShown (spawn time d s) = scoreShown s.
Proof.
  unfold spawn. destruct (Qltb _ _); cbn.
  - split; [|done]. right. by eexists (mkEntity _ _ _ _ _ _ _).
  - split; [|done]. by left.
Qed.

(** A property of states that the frame, the tap, the interval and the
    resize keep holds throughout a session. *)
Lemma clicker_session_invariant (P : State -> Prop) :
  (forall w h s, P s -> P (handleResize w h s)) ->
  (forall time d s, P s -> P (spawn time d s)) ->
  (forall k ent s, P s -> entities s !! k = Some ent ->
                   P (updateEntity k ent s)) ->
  (forall px py s, P s -> P (handleClick px py s)) ->
  (forall s, P s -> P (tick s)) ->
  forall cfg, P (initial cfg) ->
  forall w h d evs, P (run (mount cfg w h d) evs).
Proof.
  intros Hresize Hspawn Hupdate Hclick Htick cfg Hinit w h d.
  assert (Hrender : forall time d s, P s -> P (render time d s)).
  { intros time d' s Hs. unfold render.
    destruct (negb (isRunning s)); [done|].
    unfold forEachEntity. apply forEach_invariant; [|by apply Hspawn].
    intros. by apply Hupdate. }
  intros evs. unfold run. induction evs as [|e evs IH] using rev_ind.
  - by apply Hrender, Hresize.
  - rewrite foldl_app. cbn [foldl].
    destruct e as [time d'|px py| |w' h']; cbn [step]; auto.
Qed.

(** *** The score *)

(** X1.  In every Clicker session the displayed score equals the score of
    the session object, the score is ten times a natural number, and it
    never exceeds ten points for each target that was spawned and is no
    longer in the array. *)
Theorem clicker_score_is_tallied cfg w h d evs :
  let s := run (mount cfg w h d) evs in
  scoreShown s = score s
  /\ (exists n : nat, score s = 10 * Z.of_nat n)
  /\ score s + 10 * Z.of_nat (length (entities s))
     <= 10 * Z.of_nat (spawnId s).
Proof.
  apply (clicker_session_invariant
           (fun s => scoreShown s = score s
                     /\ (exists n : nat, score s = 10 * Z.of_nat n)
                     /\ score s + 10 * Z.of_nat (length (entities s))
                        <= 10 * Z.of_nat (spawnId s))).
  - done.
  - intros time d' s (Hshown & Hn & Hle).
    destruct (spawn_rest time d' s)
      as ([->|(ent & Hent & Hid & _)] & _ & Hscore & Hshown'); [done|].
    rewrite Hscore, Hshown', Hent, Hid, length_app. cbn [length].
    split; [done|]. split; [done|]. lia.
  - intros k ent s (Hshown & Hn & Hle) Hk.
    destruct (updateEntity_rest k ent s) as (Hcase & Hrest).
    rewrite <- Hrest. cbn. split; [done|]. split; [done|].
    assert (length (entities (updateEntity k ent s))
            <= length (entities s))%nat; [|lia].
    destruct Hcase as [->|(ent' & -> & _)].
    + apply sublist_length, sublist_delete.
    + by rewrite length_insert.
  - intros px py s (Hshown & (n & Hn) & Hle).
    destruct (handleClick_rest px py s)
      as (removed & Hperm & _ & Hscore & Hshown' & _ & _ & _ & Hid & _).
    apply Permutation_length in Hperm. rewrite length_app in Hperm.
    rewrite Hid, Hshown', Hscore. split; [|split].
    + destruct removed; [|done]. cbn. lia.
    + exists (n + length removed)%nat. lia.
    + lia.
  - intros s H. unfold tick. destruct (negb _); [done|].
    by destruct (_ <=? _).
  - cbn. split; [done|]. split; [by exists 0%nat | lia].
Qed.

(** *** The countdown *)

Lemma ticks_snoc evs e :
  ticks (evs ++ [e]) = (ticks evs + (if isTick e then 1 else 0))%nat.
Proof.
  unfold ticks. rewrite filter_app, length_app, filter_cons, filter_nil.
  destruct e; cbn; by rewrite ?decide_True, ?decide_False by done.
Qed.

Lemma step_counted k s e :
  counted k s ->
  counted (k + (if isTick e then 1 else 0)) (step s e).
Proof.
  intros Hk. destruct e as [time d|px py| |w h]; cbn [step isTick].
  - rewrite Nat.add_0_r. unfold counted in *.
    by destruct (render_preserved time d s)
      as (_ & _ & _ & _ & -> & -> & _).
  - rewrite Nat.add_0_r. unfold counted in *.
    by destruct (handleClick_rest px py s)
      as (_ & _ & _ & _ & _ & -> & -> & _).
  - unfold counted in *. unfold tick.
    destruct (Nat.ltb_spec k 30) as [Hlt|Hge].
    + destruct Hk as [Hleft ->]. cbn [negb].
      destruct (Z.leb_spec (timeLeft s) 1);
        destruct (Nat.ltb_spec (k + 1) 30); cbn; (lia || (split; [lia|done])).
    + destruct Hk as [Hleft Htimer]. rewrite Htimer. cbn [negb].
      destruct (Nat.ltb_spec (k + 1) 30); [lia|done].
  - by rewrite Nat.add_0_r.
Qed.

Lemma run_counted cfg w h d evs :
  counted (ticks evs) (run (mount cfg w h d) evs).
Proof.
  unfold run. induction evs as [|e evs IH] using rev_ind.
  - apply (step_counted 0 (handleResize w h (initial cfg)) (Frame 0 d)).
    by cbn.
  - rewrite foldl_app, ticks_snoc. cbn [foldl]. by apply step_counted.
Qed.

(** X2.  Whatever frames, taps and resizes come in between, the remaining
    time after [k] firings of the one-second interval is [30 - k] (0 from
    the 30th on); before the 30th firing the game runs and nothing was
    reported, and from the 30th on the game is stopped and the score was
    reported exactly once. *)
Theorem countdown_ends_at_tick_30 cfg w h d evs :
  let s := run (mount cfg w h d) evs in
  timeLeft s = Z.max 0 (30 - Z.of_nat (ticks evs))
  /\ ((ticks evs < 30)%nat -> isRunning s = true /\ calls s = [])
  /\ ((30 <= ticks evs)%nat -> isRunning s = false /\ calls s = [score s]).
Proof.
  intros s. pose proof (run_counted cfg w h d evs) as Hk.
  pose proof (run_session_ok cfg w h d evs) as [_ Hphase].
  fold s in Hk, Hphase. unfold counted in Hk.
  destruct (Nat.ltb_spec (ticks evs) 30) as [Hlt|Hge];
    destruct Hk as [Hleft Htimer].
  - split; [lia|]. split; [|lia]. intros _.
    destruct Hphase as [(? & _ & ?)|(_ & ? & _)]; [done|congruence].
  - split; [lia|]. split; [lia|]. intros _.
    destruct Hphase as [(_ & ? & _)|(? & _ & ?)]; [congruence|done].
Qed.

Lemma countdown_ends_at_tick_30_witness :
  let s := run (mount Scenario.config_speed5 800 700 Scenario.centre)
               (replicate 30 Tick) in
  isRunning s = false /\ calls s = [score s].
Proof.
  apply (countdown_ends_at_tick_30 Scenario.config_speed5 800 700
           Scenario.centre (replicate 30 Tick)).
  vm_compute. lia.
Defined.

(** X3.  Once the score was reported, no further frame, tap, interval
    firing or resize changes the targets, the score or the report. *)
Theorem clicker_frozen_after_report cfg w h d evs evs' :
  let s := run (mount cfg w h d) evs in
  calls s <> [] ->
  entities (run s evs') = entities s
  /\ score (run s evs') = score s
  /\ timeLeft (run s evs') = 0
  /\ calls (run s evs') = calls s.
Proof.
  intros s Hcalls.
  pose proof (run_session_ok cfg w h d evs) as [_ Hphase].
  pose proof (run_counted cfg w h d evs) as Hk.
  fold s in Hk, Hphase.
  destruct Hphase as [(_ & _ & ?)|(Hrun & Htimer & _)]; [done|].
  assert (Hleft : timeLeft s = 0).
  { unfold counted in Hk. destruct (_ <? _)%nat; destruct Hk; congruence. }
  clear Hk Hcalls. revert Hrun Htimer Hleft. generalize s. clear s.
  induction evs' as [|e evs' IH]; intros s Hrun Htimer Hleft; [done|].
  change (run s (e :: evs')) with (run (step s e) evs').
  assert (Hstep : entities (step s e) = entities s /\ score (step s e) = score s
                  /\ calls (step s e) = calls s
                  /\ isRunning (step s e) = false
                  /\ timerInterval (step s e) = false
                  /\ timeLeft (step s e) = 0).
  { destruct e as [time d'|px py| |w' h']; cbn [step].
    - unfold render. by rewrite Hrun.
    - unfold handleClick. by rewrite Hrun.
    - unfold tick. by rewrite Htimer.
    - done. }
  destruct Hstep as (He & Hs & Hc & Hr & Ht & Hl).
  destruct (IH (step s e) Hr Ht Hl) as (-> & -> & -> & ->). done.
Qed.

Lemma clicker_frozen_after_report_witness :
  let s := run (mount Scenario.config_speed5 800 700 Scenario.centre)
               (replicate 30 Tick) in
  score (run s [Frame 20000 Scenario.centre; Click 400 300; Tick]) = score s.
Proof.
  apply (clicker_frozen_after_report Scenario.config_speed5 800 700
           Scenario.centre (replicate 30 Tick)
           [Frame 20000 Scenario.centre; Click 400 300; Tick]).
  by vm_compute.
Defined.

(** *** Identifiers *)

Lemma ids_after_delete {A} (f : A -> nat) (l : list A) (k n : nat) :
  map f l `sublist_of` seq 0 n -> map f (delete k l) `sublist_of` seq 0 n.
Proof.
  intros H. change (map f ?x) with (f <$> x) in *.
  rewrite list_fmap_delete. etrans; [apply sublist_delete | done].
Qed.

Lemma ids_after_insert {A} (f : A -> nat) (l : list A) (k : nat) (a a' : A) :
  l !! k = Some a -> f a' = f a -> map f (<[k := a']> l) = map f l.
Proof.
  intros Hk Hf. change (map f ?x) with (f <$> x).
  rewrite list_fmap_insert, Hf. apply list_insert_id.
  by rewrite list_lookup_fmap, Hk.
Qed.

Lemma ids_after_push {A} (f : A -> nat) (l : list A) (a : A) (n : nat) :
  map f l `sublist_of` seq 0 n -> f a = n ->
  map f (l ++ [a]) `sublist_of` seq 0 (S n).
Proof.
  intros H Hf. rewrite map_app, seq_S. cbn. rewrite Hf.
  by apply sublist_app.
Qed.

(** X4.  In every Clicker session the identifiers of the targets in the
    array are strictly increasing values of the spawn counter: they form a
    sub-sequence of [0, 1, ..., spawnId - 1], so no two targets share an
    identifier. *)
Theorem clicker_ids_are_fresh cfg w h d evs :
  let s := run (mount cfg w h d) evs in
  map ent_id (entities s) `sublist_of` seq 0 (spawnId s)
  /\ NoDup (map ent_id (entities s)).
Proof.
  intros s.
  assert (H : ids_fresh s);
    [|split; [done | by eapply sublist_NoDup; [apply NoDup_seq|]]].
  apply (clicker_session_invariant ids_fresh); unfold ids_fresh.
  - done.
  - intros time d' s' H.
    destruct (spawn_rest time d' s')
      as ([->|(ent & -> & -> & Hid & _)] & _); [done|].
    by apply ids_after_push.
  - intros k ent s' H Hk.
    destruct (updateEntity_rest k ent s') as (Hcase & Hrest).
    rewrite <- Hrest. cbn.
    destruct Hcase as [->|(ent' & -> & Hid & _)].
    + by apply ids_after_delete.
    + by rewrite (ids_after_insert _ _ _ ent ent').
  - intros px py s' H.
    destruct (handleClick_rest px py s')
      as (removed & _ & Hsub & _ & _ & _ & _ & _ & -> & _).
    etrans; [|exact H]. change (map ent_id ?x) with (ent_id <$> x).
    by apply fmap_sublist.
  - intros s' H. unfold tick. destruct (negb _); [done|].
    by destruct (_ <=? _).
  - cbn. done.
Qed.

(** *** Sizes *)

Lemma speedMultiplier_nonneg cfg :
  (0 <= speed (parameters cfg))%Q -> (0 <= speedMultiplier cfg)%Q.
Proof.
  intros H. unfold speedMultiplier, Qdiv.
  apply Qmult_le_0_compat; [done|]. by vm_compute.
Qed.

(** X5.  With a speed that is not negative, every target of a Clicker
    session has a radius between 0 and less than 40 plus one growth step,
    a life of at most 100, and the maximal life 100. *)
Theorem clicker_targets_are_bounded cfg w h d evs :
  (0 <= speed (parameters cfg))%Q ->
  Forall (fun e => (0 <= ent_r e)%Q
                   /\ (ent_r e < 40 + 2 * speedMultiplier cfg)%Q
                   /\ (ent_life e <= 100)%Q
                   /\ ent_maxLife e = 100%Q)
         (entities (run (mount cfg w h d) evs)).
Proof.
  intros Hspeed. apply speedMultiplier_nonneg in Hspeed.
  assert (H : config (run (mount cfg w h d) evs) = cfg
              /\ bounded (run (mount cfg w h d) evs)).
  2: { destruct H as [Hcfg H]. unfold bounded in H. by rewrite Hcfg in H. }
  apply (clicker_session_invariant (fun s => config s = cfg /\ bounded s));
    unfold bounded.
  - done.
  - intros time d' s' [Hcfg H].
    destruct (spawn_rest time d' s') as (Hcase & Hcfg' & _).
    rewrite Hcfg'. split; [done|].
    destruct Hcase as [->|(ent & -> & _ & _ & Hr & Hl & Hm)]; [done|].
    apply Forall_app. split; [done|].
    repeat constructor; rewrite ?Hr, ?Hl, ?Hcfg; try done. lra.
  - intros k ent s' [Hcfg H] Hk.
    destruct (updateEntity_rest k ent s') as (Hcase & Hrest).
    rewrite <- Hrest. cbn. split; [done|].
    destruct Hcase as [->|(ent' & -> & _ & Hm & Hr & Hl)].
    + by apply Forall_delete.
    + apply Forall_insert; [done|].
      rewrite Forall_forall in H.
      destruct (H ent) as (Hr0 & Hr1 & Hl1 & Hm1).
      { by eapply list_elem_of_lookup_2. }
      rewrite Hcfg in *. rewrite Hr, Hl, Hm.
      destruct (Qltb (ent_r ent) 40) eqn:Hlt;
        [apply Qltb_lt in Hlt|]; repeat split; try done; lra.
  - intros px py s' [Hcfg H].
    destruct (handleClick_rest px py s')
      as (removed & _ & Hsub & _ & _ & _ & _ & _ & _ & _ & ->).
    split; [done|]. rewrite Forall_forall in *. intros e He.
    apply H. by eapply elem_of_sublist.
  - intros s' H. unfold tick. destruct (negb _); [done|].
    by destruct (_ <=? _).
  - cbn. split; [done | constructor].
Qed.

Lemma clicker_targets_are_bounded_witness :
  Forall (fun e => (0 <= ent_r e)%Q
                   /\ (ent_r e < 40 + 2 * speedMultiplier Scenario.config_speed5)%Q
                   /\ (ent_life e <= 100)%Q
                   /\ ent_maxLife e = 100%Q)
         (entities Scenario.overlapping).
Proof.
  apply (clicker_targets_are_bounded Scenario.config_speed5 800 700
           Scenario.centre (map Scenario.clickerFrame (seq 1 114))).
  by vm_compute.
Defined.

(** *** Placement *)




(** *** Taps that hit nothing *)

(** X7.  A tap that is inside no target changes nothing. *)
Theorem tap_outside_changes_nothing px py s :
  Forall (fun e => hit px py e = false) (entities s) ->
  handleClick px py s = s.
Proof.
  intros Hmiss. unfold handleClick, forEachEntity.
  destruct (negb (isRunning s)); [done|].
  rewrite (forEach_hit_skip px py (entities s) Hmiss _ s [] []);
    [|by rewrite app_nil_r | done].
  by rewrite Nat.sub_diag.
Qed.

Lemma tap_outside_changes_nothing_witness :
  handleClick 700 500 Scenario.overlapping = Scenario.overlapping.
Proof.
  apply (tap_outside_changes_nothing 700 500 Scenario.overlapping).
  vm_compute. by repeat constructor.
Defined.

End ClickerMore.

(** ** Catcher: further properties *)

Module CatcherMore.
Import Catcher CatcherInv CatcherFacts.

(** *** What the loop body does *)

Lemma updateItem_rest i s item :
  items s !! i = Some item ->
  ((items (updateItem i s) = delete i (items s)
    /\ score (updateItem i s) = score s + 1
    /\ scoreShown (updateItem i s) = score s + 1
    /\ lives (updateItem i s) = lives s
    /\ livesShown (updateItem i s) = livesShown s
    /\ calls (updateItem i s) = calls s
    /\ isRunning (updateItem i s) = isRunning s)
   \/ (items (updateItem i s) = delete i (items s)
       /\ score (updateItem i s) = score s
       /\ scoreShown (updateItem i s) = scoreShown s
       /\ lives (updateItem i s) = lives s - 1
       /\ livesShown (updateItem i s) = lives s - 1
       /\ calls (updateItem i s)
          = (if lives s - 1 <=? 0 then calls s ++ [score s] else calls s)
       /\ isRunning (updateItem i s)
          = (if lives s - 1 <=? 0 then false else isRunning s))
   \/ (items (updateItem i s) = <[i := fall item]> (items s)
       /\ score (updateItem i s) = score s
       /\ scoreShown (updateItem i s) = scoreShown s
       /\ lives (updateItem i s) = lives s
       /\ livesShown (updateItem i s) = livesShown s
       /\ calls (updateItem i s) = calls s
       /\ isRunning (updateItem i s) = isRunning s))
  /\ config (updateItem i s) = config s
  /\ width (updateItem i s) = width s
  /\ height (updateItem i s) = height s
  /\ playerX (updateItem i s) = playerX s
  /\ spawnId (updateItem i s) = spawnId s.
Proof.
  intros Hi. unfold updateItem. rewrite Hi. cbn zeta.
  destruct (caught _ _); [|destruct (missed _ _)].
  - cbn. split; [|done]. left. by rewrite delete_insert_same.
  - cbn. destruct (lives s - 1 <=? 0); cbn; (split; [|done]);
      right; left; by rewrite delete_insert_same.
  - cbn. split; [|done]. right; right. done.
Qed.

Lemma updateItem_none i s : items s !! i = None -> updateItem i s = s.
Proof. intros Hi. unfold updateItem. by rewrite Hi. Qed.

Lemma catcher_spawn_rest time d s :
  (spawn time d s = s
   \/ exists item,
       items (spawn time d s) = items s ++ [item]
       /\ spawnId (spawn time d s) = S (spawnId s)
       /\ item_id item = spawnId s
       /\ item_x item = (u_x d * (width s - 40) + 20)%Q
       /\ item_y item = (-50)%Q
       /\ item_speed item
          = (u_speed d * 2 + speedBase (config s) * (1 # 2))%Q)
  /\ mkState (config s) (width s) (height s) (playerX s)
             (items (spawn time d s)) (score s) (lives s) (isRunning s)
             (lastSpawn (spawn time d s)) (scoreShown s) (livesShown s)
             (spawnId (spawn time d s)) (calls s)
     = spawn time d s.
Proof.
  unfold spawn. destruct (Qltb _ _); cbn.
  - split; [|done]. right. by eexists (mkItem _ _ _ _ _).
  - split; [by left | by destruct s].
Qed.

Lemma constrain_rest s :
  mkState (config s) (width s) (height s) (playerX (constrain s)) (items s)
          (score s) (lives s) (isRunning s) (lastSpawn s) (scoreShown s)
          (livesShown s) (spawnId s) (calls s)
  = constrain s.
Proof.
  unfold constrain.
  destruct (Qltb (playerX s) _); destruct (Qltb _ _); cbn; by destruct s.
Qed.

(** A property of states that the handlers and the parts of a frame keep
    holds throughout a session. *)
Lemma catcher_session_invariant (P : State -> Prop) :
  (forall w h s, P s -> P (handleResize w h s)) ->
  (forall px s, P s -> P (set_playerX px s)) ->
  (forall time d s, P s -> P (spawn time d s)) ->
  (forall i s, P s -> P (updateItem i s)) ->
  forall cfg, P (initial cfg) ->
  forall w h d evs, P (run (mount cfg w h d) evs).
Proof.
  intros Hresize Hmove Hspawn Hupdate cfg Hinit w h d.
  assert (Hconstrain : forall s, P s -> P (constrain s)).
  { intros s Hs. unfold constrain.
    destruct (Qltb (playerX s) _); destruct (Qltb _ _); auto. }
  assert (Hloop : forall n s, P s -> P (updateItems n s)).
  { induction n as [|n IH]; intros s Hs; cbn; auto. }
  assert (Hrender : forall time d s, P s -> P (render time d s)).
  { intros time d' s Hs. unfold render.
    destruct (negb (isRunning s)); [done|]. by apply Hloop, Hspawn, Hconstrain. }
  intros evs. unfold run. induction evs as [|e evs IH] using rev_ind.
  - by apply Hrender, Hresize.
  - rewrite foldl_app. cbn [foldl].
    destruct e as [time d'|px|px|w' h']; cbn [step]; auto; by apply Hmove.
Qed.

(** *** Every item is accounted for *)

(** X8.  In every Catcher session the number of items spawned so far is the
    number of items on the screen plus the score plus the lives lost: every
    item is falling, was caught for one point or was missed for one life,
    and never both.  The displayed score and lives equal those of the
    session object, the score is not negative and the lives never exceed
    5. *)
Theorem catcher_items_are_accounted cfg w h d evs :
  let s := run (mount cfg w h d) evs in
  Z.of_nat (spawnId s)
  = Z.of_nat (length (items s)) + score s + (5 - lives s)
  /\ scoreShown s = score s /\ livesShown s = lives s
  /\ 0 <= score s /\ lives s <= 5.
Proof.
  apply (catcher_session_invariant
           (fun s => accounted s /\ scoreShown s = score s
                     /\ livesShown s = lives s
                     /\ 0 <= score s /\ lives s <= 5)); unfold accounted.
  - done.
  - done.
  - intros time d' s H.
    destruct (catcher_spawn_rest time d' s) as (Hcase & Hrest).
    rewrite <- Hrest. cbn.
    destruct Hcase as [->|(item & -> & -> & _)]; [done|].
    rewrite length_app. cbn [length]. split; [lia | apply H].
  - intros i s (Hacc & Hshown & Hlives & Hscore & Hmax).
    destruct (items s !! i) as [item|] eqn:Hi;
      [|by rewrite updateItem_none].
    assert (Hlen : length (delete i (items s)) = (length (items s) - 1)%nat)
      by (by apply length_delete).
    apply lookup_lt_Some in Hi as Hlt.
    destruct (updateItem_rest i s item Hi)
      as ([(-> & -> & -> & -> & -> & _)
          |[(-> & -> & -> & -> & -> & _)|(-> & -> & -> & -> & -> & _)]]
          & _ & _ & _ & _ & ->);
      rewrite ?Hlen, ?length_insert; repeat split; lia.
  - cbn. lia.
Qed.

(** *** Reports *)

(** X9.  The Catcher reports nothing while lives are left; once they are
    exhausted it has reported once for every life lost from 1 downwards,
    and every report lies between 0 and the present score. *)
Theorem catcher_reports_follow_lives cfg w h d evs :
  let s := run (mount cfg w h d) evs in
  Forall (fun sc => 0 <= sc <= score s) (calls s)
  /\ (0 < lives s -> calls s = [])
  /\ (lives s <= 0 -> Z.of_nat (length (calls s)) = 1 - lives s).
Proof.
  intros s. pose proof (catcher_run_ok cfg w h d evs) as (_ & _ & Hphase).
  fold s in Hphase. split.
  - apply (catcher_session_invariant
             (fun s => 0 <= score s
                       /\ Forall (fun sc => 0 <= sc <= score s) (calls s)));
      try done.
    + intros time d' s' H. destruct (catcher_spawn_rest time d' s') as (_ & <-).
      done.
    + intros i s' [Hscore H].
      destruct (items s' !! i) as [item|] eqn:Hi;
        [|by rewrite updateItem_none].
      destruct (updateItem_rest i s' item Hi)
        as ([(_ & -> & _ & _ & _ & -> & _)
            |[(_ & -> & _ & _ & _ & -> & _)|(_ & -> & _ & _ & _ & -> & _)]]
            & _).
      * split; [lia|]. eapply Forall_impl; [exact H|]. cbn. lia.
      * split; [done|]. destruct (_ <=? _); [|done].
        apply Forall_app. split; [done|]. repeat constructor; lia.
      * done.
  - destruct Hphase as [(Hl & _ & ->)|(Hl & _ & Hn)]; split; (done || lia).
Qed.

Lemma catcher_reports_follow_lives_witness :
  Z.of_nat (length (calls (Scenario.idle 280))) = 1 - lives (Scenario.idle 280).
Proof.
  apply (catcher_reports_follow_lives Scenario.config_speed10 800 700
           Scenario.slow (map Scenario.catcherFrame (seq 1 280))).
  by vm_compute.
Defined.

(** X10.  Once the lives are exhausted, no further frame, pointer move or
    resize changes the items, the score, the lives or the reports. *)
Theorem catcher_frozen_after_report cfg w h d evs evs' :
  let s := run (mount cfg w h d) evs in
  lives s <= 0 ->
  items (run s evs') = items s
  /\ score (run s evs') = score s
  /\ lives (run s evs') = lives s
  /\ calls (run s evs') = calls s.
Proof.
  intros s Hlives.
  pose proof (catcher_run_ok cfg w h d evs) as (_ & _ & Hphase).
  fold s in Hphase.
  destruct Hphase as [(? & _)|(_ & Hrun & _)]; [lia|].
  clear Hlives. revert Hrun. generalize s. clear s.
  induction evs' as [|e evs' IH]; intros s Hrun; [done|].
  change (run s (e :: evs')) with (run (step s e) evs').
  assert (Hstep : items (step s e) = items s /\ score (step s e) = score s
                  /\ lives (step s e) = lives s
                  /\ calls (step s e) = calls s
                  /\ isRunning (step s e) = false).
  { destruct e as [time d'|px|px|w' h']; cbn [step]; try done.
    unfold render. by rewrite Hrun. }
  destruct Hstep as (Hi & Hs & Hl & Hc & Hr).
  destruct (IH (step s e) Hr) as (-> & -> & -> & ->). done.
Qed.

Lemma catcher_frozen_after_report_witness :
  calls (run (Scenario.idle 280)
             [Scenario.catcherFrame 281; MouseMove 20;
              Scenario.catcherFrame 282])
  = calls (Scenario.idle 280).
Proof.
  apply (catcher_frozen_after_report Scenario.config_speed10 800 700
           Scenario.slow (map Scenario.catcherFrame (seq 1 280))
           [Scenario.catcherFrame 281; MouseMove 20;
            Scenario.catcherFrame 282]).
  by vm_compute.
Defined.

(** *** Identifiers *)

(** X11.  In every Catcher session the identifiers of the items on the
    screen are strictly increasing values of the spawn counter, so no two
    items share an identifier. *)
Theorem catcher_ids_are_fresh cfg w h d evs :
  let s := run (mount cfg w h d) evs in
  map item_id (items s) `sublist_of` seq 0 (spawnId s)
  /\ NoDup (map item_id (items s)).
Proof.
  intros s.
  assert (H : ids_fresh s);
    [|split; [done | by eapply sublist_NoDup; [apply NoDup_seq|]]].
  apply (catcher_session_invariant ids_fresh); unfold ids_fresh; try done.
  - intros time d' s' H.
    destruct (catcher_spawn_rest time d' s')
      as ([->|(item & -> & -> & Hid & _)] & _); [done|].
    by apply ClickerMore.ids_after_push.
  - intros i s' H.
    destruct (items s' !! i) as [item|] eqn:Hi;
      [|by rewrite updateItem_none].
    destruct (updateItem_rest i s' item Hi)
      as ([(-> & _)|[(-> & _)|(-> & _)]] & _ & _ & _ & _ & ->).
    + by apply ClickerMore.ids_after_delete.
    + by apply ClickerMore.ids_after_delete.
    + by rewrite (ClickerMore.ids_after_insert _ _ _ item (fall item)).
Qed.

(** *** The paddle *)

Lemma updateItems_frame n s :
  playerX (updateItems n s) = playerX s /\ width (updateItems n s) = width s.
Proof.
  revert s. induction n as [|n IH]; intros s; [done|]. cbn.
  destruct (IH (updateItem n s)) as [-> ->].
  destruct (items s !! n) as [item|] eqn:Hi;
    [|by rewrite updateItem_none].
  by destruct (updateItem_rest n s item Hi) as (_ & _ & -> & _ & -> & _).
Qed.

Lemma render_frame time d s :
  isRunning s = true ->
  playerX (render time d s) = playerX (constrain s)
  /\ width (render time d s) = width s.
Proof.
  intros Hrun. unfold render. rewrite Hrun. cbn [negb].
  destruct (updateItems_frame
              (length (items (spawn time d (constrain s))))
              (spawn time d (constrain s))) as [-> ->].
  destruct (catcher_spawn_rest time d (constrain s)) as (_ & <-). cbn.
  by rewrite <- (constrain_rest s).
Qed.

(** X12.  After a frame of a running Catcher the paddle centre is at least
    half a paddle away from both edges of a canvas that is at least one
    paddle (100 pixels) wide, wherever the pointer took it; on a narrower
    canvas it ends half a paddle left of the right edge. *)
Theorem catcher_paddle_is_clamped time d s :
  isRunning s = true ->
  ((100 <= width s)%Q ->
   (50 <= playerX (render time d s))%Q
   /\ (playerX (render time d s) <= width (render time d s) - 50)%Q)
  /\ ((width s < 100)%Q ->
      (playerX (render time d s) == width (render time d s) - 50)%Q).
Proof.
  intros Hrun. destruct (render_frame time d s Hrun) as [-> ->].
  unfold constrain, playerW.
  assert (Hhalf : (100 / 2 == 50)%Q) by reflexivity.
  destruct (Qltb (playerX s) (100 / 2)) eqn:Hlow;
    [apply Qltb_lt in Hlow | apply Qltb_ge in Hlow];
    cbn [playerX width set_playerX];
    match goal with
    | |- context [Qltb ?a ?b] =>
        destruct (Qltb a b) eqn:Hhigh;
        [apply Qltb_lt in Hhigh | apply Qltb_ge in Hhigh]
    end; cbn [playerX width set_playerX];
    (split; intros Hw; [split|]); lra.
Qed.

Lemma catcher_paddle_is_clamped_witness :
  (50 <= playerX (render 17 Scenario.slow
                    (handleMove 2000
                       (mount Scenario.config_speed10 800 700 Scenario.slow))))%Q.
Proof.
  apply (catcher_paddle_is_clamped 17 Scenario.slow
           (handleMove 2000
              (mount Scenario.config_speed10 800 700 Scenario.slow)));
    by vm_compute.
Defined.

(** *** Placement and fall *)



(** The item loop, run over the first [n] items: those that stay are the
    fallen versions of items that were there, in their order. *)
Lemma updateItems_fall n s pre post :
  items s = pre ++ post -> length pre = n ->
  items (updateItems n s) `sublist_of` map fall pre ++ post.
Proof.
  revert s pre post. induction n as [|n IH]; intros s pre post Hs Hn.
  - destruct pre; [|done]. cbn. by rewrite Hs.
  - induction pre as [|x pre' _] using rev_ind; [done|].
    rewrite length_app in Hn. cbn in Hn.
    assert (Hlen : length pre' = n) by lia.
    rewrite <- app_assoc in Hs. cbn in Hs.
    assert (Hi : items s !! n = Some x).
    { rewrite Hs, <- Hlen. by apply list_lookup_middle. }
    cbn [updateItems]. rewrite map_app, <- app_assoc. cbn.
    destruct (updateItem_rest n s x Hi)
      as ([(Hitems & _)|[(Hitems & _)|(Hitems & _)]] & _).
    + etrans; [apply (IH _ pre' post); [|done]|].
      * by rewrite Hitems, Hs, <- Hlen, delete_middle.
      * apply sublist_app; [done|]. by apply sublist_cons.
    + etrans; [apply (IH _ pre' post); [|done]|].
      * by rewrite Hitems, Hs, <- Hlen, delete_middle.
      * apply sublist_app; [done|]. by apply sublist_cons.
    + apply (IH _ pre' (fall x :: post)); [|done].
      rewrite Hitems, Hs, <- Hlen. by rewrite insert_app_r_alt, Nat.sub_diag.
Qed.

(** X14.  A frame of a running Catcher moves every item that stays on the
    screen down by exactly its own speed and leaves its position across,
    speed, symbol and identifier alone; it keeps the order of the items
    and adds at most one new item, at the end. *)
Theorem catcher_items_fall_straight time d s :
  isRunning s = true ->
  exists new,
    (length new <= 1)%nat
    /\ items (render time d s) `sublist_of` map fall (items s ++ new).
Proof.
  intros Hrun. unfold render. rewrite Hrun. cbn [negb].
  destruct (catcher_spawn_rest time d (constrain s)) as (Hcase & _).
  assert (Hitems : items (constrain s) = items s)
    by (by rewrite <- (constrain_rest s)).
  destruct Hcase as [Heq|(item & Hnew & _)].
  - exists []. split; [cbn; lia|]. rewrite Heq, app_nil_r.
    rewrite <- (app_nil_r (map fall (items s))), <- Hitems.
    apply updateItems_fall; [by rewrite app_nil_r | done].
  - exists [item]. split; [done|].
    rewrite <- (app_nil_r (map fall (items s ++ [item]))), <- Hitems, <- Hnew.
    apply updateItems_fall; [by rewrite app_nil_r | done].
Qed.

Lemma catcher_items_fall_straight_witness :
  exists new,
    (length new <= 1)%nat
    /\ items (render 4760 Scenario.slow (Scenario.idle 279))
       `sublist_of` map fall (items (Scenario.idle 279) ++ new).
Proof.
  apply (catcher_items_fall_straight 4760 Scenario.slow (Scenario.idle 279)).
  by vm_compute.
Defined.

End CatcherMore.

(** ** Memory: further properties *)

Module MemoryMore.
Import Memory MemoryInv MemoryFacts.

Lemma memory_session_invariant (Q : State -> Prop) shuffle cfg :
  Q (mount shuffle cfg) ->
  (forall s e, session_ok s -> Q s -> Q (step s e)) ->
  forall evs, Q (run (mount shuffle cfg) evs).
Proof.
  intros Hmount Hstep evs. unfold run.
  induction evs as [|e evs IH] using rev_ind; [done|].
  rewrite foldl_app. cbn [foldl].
  apply Hstep; [apply memory_run_ok | done].
Qed.

Lemma run_app s evs evs' : run s (evs ++ evs') = run (run s evs) evs'.
Proof. unfold run. apply foldl_app. Qed.

(** *** The deck during a session *)

Lemma sameCard_refl c : sameCard c c.
Proof. by repeat split. Qed.

Lemma evolves_refl cs : evolves cs cs.
Proof. apply Forall2_same_length_lookup_2; [done|]. intros i c c' H1 H2.
  rewrite H1 in H2. injection H2 as <-. apply sameCard_refl. Qed.

Lemma evolves_trans cs1 cs2 cs3 :
  evolves cs1 cs2 -> evolves cs2 cs3 -> evolves cs1 cs3.
Proof.
  unfold evolves. intros H12. revert cs3.
  induction H12 as [|c1 c2 cs1 cs2 (Hi & Hc & Hm) _ IH]; intros cs3 H23.
  - by inversion H23.
  - inversion H23 as [|? c3 ? cs3' (Hi' & Hc' & Hm') H23']; subst.
    constructor; [|by apply IH].
    repeat split; [congruence | congruence | auto].
Qed.

Lemma evolves_map (g : Card -> Card) cs :
  (forall c, sameCard c (g c)) -> evolves cs (map g cs).
Proof.
  intros Hg. unfold evolves. induction cs; cbn; constructor; auto.
Qed.

Lemma sameCard_faceUp i c : sameCard c (faceUp i c).
Proof.
  unfold sameCard. rewrite faceUp_id, faceUp_content, faceUp_matched. done.
Qed.

Lemma sameCard_faceDown a b c : sameCard c (faceDown a b c).
Proof.
  unfold sameCard. rewrite faceDown_id, faceDown_matched.
  split; [done|]. split; [|done]. unfold faceDown. by destruct (_ || _).
Qed.

Lemma sameCard_markMatched a b c : sameCard c (markMatched a b c).
Proof.
  unfold sameCard. rewrite markMatched_id, markMatched_matched.
  split; [done|]. split; [|by intros ->].
  unfold markMatched. by destruct (_ || _).
Qed.

Lemma step_evolves s e : evolves (cards s) (cards (step s e)).
Proof.
  destruct e as [i|dt].
  - rewrite step_click. destruct (accepted i s); [|apply evolves_refl].
    destruct (flippedIds s) as [|a [|b l]]; [| |apply evolves_refl].
    + apply evolves_map, sameCard_faceUp.
    + destruct (sameContent _ _).
      * unfold matchedPair.
        destruct (gameOverCheck_fields
                    (mkState (config s)
                       (map (markMatched a i) (map (faceUp i) (cards s))) []
                       (matches s + 1) (moves s + 1) (now s) None
                       (gameOver s) (calls s))) as (_ & -> & _).
        cbn [cards]. eapply evolves_trans.
        -- apply evolves_map, (sameCard_faceUp i).
        -- apply evolves_map, sameCard_markMatched.
      * unfold mismatchedPair.
        destruct (gameOverCheck_fields
                    (mkState (config s) (map (faceUp i) (cards s)) [a; i]
                       (matches s) (moves s + 1) (now s)
                       (Some (now s + 1000, a, i)%nat)
                       (gameOver s) (calls s))) as (_ & -> & _).
        apply evolves_map, sameCard_faceUp.
  - rewrite step_wait. unfold set_now, fireGameOver. cbn [cards].
    destruct (flipBack s) as [[[deadline a] b]|]; [|apply evolves_refl].
    destruct (deadline <=? now s + dt)%nat; [|apply evolves_refl].
    apply evolves_map, sameCard_faceDown.
Qed.

Lemma run_evolves s evs : evolves (cards s) (cards (run s evs)).
Proof.
  revert s. induction evs as [|e evs IH]; intros s; [apply evolves_refl|].
  rewrite run_cons. eapply evolves_trans; [apply step_evolves | apply IH].
Qed.

Lemma evolves_contents cs cs' :
  evolves cs cs' ->
  map content cs' = map content cs /\ map card_id cs' = map card_id cs.
Proof.
  induction 1 as [|c c' cs cs' (Hi & Hc & _) _ [IH1 IH2]]; [done|].
  cbn. by rewrite Hi, Hc, IH1, IH2.
Qed.

(** X15.  The deck of a Memory session is fixed at mount: no event changes
    the number of cards, their order, their identifiers (the positions 0,
    1, ...) or the symbols they show. *)
Theorem memory_deck_is_fixed shuffle cfg evs :
  let s := run (mount shuffle cfg) evs in
  map content (cards s)
  = shuffle (take 8 (assets cfg) ++ take 8 (assets cfg))
  /\ map card_id (cards s) = seq 0 (length (cards s))
  /\ length (cards s)
     = length (shuffle (take 8 (assets cfg) ++ take 8 (assets cfg))).
Proof.
  intros s.
  destruct (evolves_contents _ _ (run_evolves (mount shuffle cfg) evs))
    as [Hc _].
  fold s in Hc. rewrite mount_state in Hc. cbn [cards] in Hc.
  rewrite deck_contents in Hc. split; [done|].
  split; [apply (ok_ids _ (memory_run_ok shuffle cfg evs))|].
  by rewrite <- Hc, length_map.
Qed.

(** X16.  A matched card stays matched and face-up, and keeps its symbol,
    for the rest of the session. *)
Theorem memory_matched_is_permanent shuffle cfg evs evs' i c :
  let s := run (mount shuffle cfg) evs in
  cards s !! i = Some c ->
  isMatched c = true ->
  exists c',
    cards (run s evs') !! i = Some c'
    /\ isMatched c' = true /\ isFlipped c' = true
    /\ content c' = content c /\ card_id c' = card_id c.
Proof.
  intros s Hi Hm. pose proof (run_evolves s evs') as Hev.
  destruct (Forall2_lookup_l _ _ _ _ _ Hev Hi) as (c' & Hi' & Hid & Hc & Hm').
  exists c'. split; [done|]. split; [auto|]. split; [|done].
  pose proof (memory_run_ok shuffle cfg (evs ++ evs')) as Hok.
  rewrite run_app in Hok. fold s in Hok.
  pose proof (ok_faces _ Hok) as Hfaces.
  rewrite Forall_forall in Hfaces.
  rewrite (Hfaces c'); [|by eapply list_elem_of_lookup_2].
  by rewrite Hm'.
Qed.

Lemma memory_matched_is_permanent_witness :
  let s := run (mount Scenario.backwards Scenario.config_two)
               [Click 0; Click 2] in
  exists c',
    cards (run s [Click 1; Click 0; Wait 1000; Click 2]) !! 0%nat = Some c'
    /\ isMatched c' = true /\ isFlipped c' = true
    /\ content c' = "b" /\ card_id c' = 0%nat.
Proof.
  apply (memory_matched_is_permanent Scenario.backwards Scenario.config_two
           [Click 0; Click 2] [Click 1; Click 0; Wait 1000; Click 2] 0
           (mkCard 0 "b" true true)); by vm_compute.
Defined.

(** *** Matched cards come in pairs of one symbol *)

Lemma matchedWith_le v cs :
  (matchedWith v cs <= length (filter (fun c => isMatched c = true) cs))%nat.
Proof.
  unfold matchedWith. induction cs as [|c cs IH]; [done|].
  rewrite !filter_cons.
  destruct (decide (isMatched c = true /\ content c = v)) as [[Hm _]|_].
  - rewrite decide_True by done. simpl. lia.
  - destruct (decide (isMatched c = true)); simpl; lia.
Qed.

Lemma matchedWith_map (g : Card -> Card) v cs :
  (forall c, isMatched (g c) = isMatched c) ->
  (forall c, content (g c) = content c) ->
  matchedWith v (map g cs) = matchedWith v cs.
Proof.
  intros Hm Hc. unfold matchedWith.
  induction cs as [|c cs IH]; [done|]. cbn [map].
  rewrite !filter_cons, Hm, Hc.
  destruct (decide _); simpl; by rewrite IH.
Qed.

Lemma faceDown_content a b c : content (faceDown a b c) = content c.
Proof. unfold faceDown. by destruct (_ || _). Qed.

Lemma markMatched_content a b c : content (markMatched a b c) = content c.
Proof. unfold markMatched. by destruct (_ || _). Qed.

Lemma matchedWith_marked a b v cs :
  a <> b ->
  matchedWith v (map (markMatched a b) cs)
  = (matchedWith v cs
     + length (filter (fun c => isMatched c = false /\ card_id c = a
                                /\ content c = v) cs)
     + length (filter (fun c => isMatched c = false /\ card_id c = b
                                /\ content c = v) cs))%nat.
Proof.
  intros Hab. unfold matchedWith.
  induction cs as [|c cs IH]; [done|]. cbn [map].
  rewrite !filter_cons, markMatched_matched, markMatched_content.
  destruct (Nat.eqb_spec (card_id c) a), (Nat.eqb_spec (card_id c) b),
    (isMatched c) eqn:E, (decide (content c = v)); cbn [orb];
    repeat (destruct (decide _)); cbn [length]; rewrite ?IH; try lia;
    exfalso; intuition congruence.
Qed.

Lemma filter_no_id_with x v cs :
  x ∉ map card_id cs ->
  length (filter (fun c => isMatched c = false /\ card_id c = x
                           /\ content c = v) cs) = 0%nat.
Proof.
  induction cs as [|c cs IH]; [done|]. cbn [map]. intros Hx.
  apply not_elem_of_cons in Hx as [Hne Hx]. rewrite filter_cons.
  destruct (decide _) as [(_ & Heq & _)|_]; [congruence | by apply IH].
Qed.

Lemma filter_one_id_with x v cs c :
  NoDup (map card_id cs) ->
  findCard x cs = Some c -> isMatched c = false ->
  length (filter (fun c => isMatched c = false /\ card_id c = x
                           /\ content c = v) cs)
  = if decide (content c = v) then 1%nat else 0%nat.
Proof.
  intros Hnd Hfind Hc.
  induction cs as [|c' cs IH]; [done|]. cbn [map] in Hnd. simpl in Hfind.
  apply NoDup_cons in Hnd as [Hnotin Hnd]. rewrite filter_cons.
  destruct (Nat.eqb_spec (card_id c') x) as [Heq|Hne].
  - injection Hfind as ->.
    destruct (decide (content c = v)) as [Hv|Hv].
    + rewrite decide_True by done. cbn [length].
      rewrite filter_no_id_with; [done | by rewrite <- Heq].
    + rewrite decide_False by (by intros (_ & _ & ?)).
      rewrite filter_no_id_with; [done | by rewrite <- Heq].
  - destruct (decide (_ /\ _)) as [(_ & Heq & _)|_];
      [congruence | by apply IH].
Qed.

Lemma step_matchedWith v s e :
  session_ok s ->
  Nat.Even (matchedWith v (cards s)) ->
  Nat.Even (matchedWith v (cards (step s e))).
Proof.
  intros Hok Heven. destruct e as [i|dt].
  - rewrite step_click. destruct (accepted i s) eqn:Hacc; [|done].
    destruct (flippedIds s) as [|a [|b l]] eqn:Hf; [| |done].
    + unfold turnedFirst. cbn [cards].
      by rewrite matchedWith_map
        by (apply faceUp_matched || apply faceUp_content).
    + destruct (sameContent _ _) eqn:Hsame.
      * unfold matchedPair.
        destruct (gameOverCheck_fields
                    (mkState (config s)
                       (map (markMatched a i) (map (faceUp i) (cards s))) []
                       (matches s + 1) (moves s + 1) (now s) None
                       (gameOver s) (calls s))) as (_ & -> & _).
        cbn [cards].
        destruct (accepted_spec i s Hacc) as ((c & Hfind & Hm) & _ & Hnew).
        rewrite Hf in Hnew. cbn [existsb] in Hnew.
        rewrite orb_false_r in Hnew. apply Nat.eqb_neq in Hnew.
        pose proof (ok_flipped s Hok) as Hfl. rewrite Hf in Hfl.
        apply Forall_cons in Hfl as [(ca & Hfa & Hma) _].
        rewrite sameContent_faceUp, Hfa, Hfind in Hsame.
        cbn [sameContent] in Hsame. apply String.eqb_eq in Hsame.
        rewrite matchedWith_marked by done.
        rewrite matchedWith_map
          by (apply faceUp_matched || apply faceUp_content).
        rewrite (filter_one_id_with a v _ (faceUp i ca)); cycle 1.
        { rewrite map_ids by apply faceUp_id. by apply ids_NoDup. }
        { rewrite findCard_map by apply faceUp_id. by rewrite Hfa. }
        { by rewrite faceUp_matched. }
        rewrite (filter_one_id_with i v _ (faceUp i c)); cycle 1.
        { rewrite map_ids by apply faceUp_id. by apply ids_NoDup. }
        { rewrite findCard_map by apply faceUp_id. by rewrite Hfind. }
        { by rewrite faceUp_matched. }
        rewrite !faceUp_content, Hsame.
        destruct Heven as [k Hk]. rewrite Hk.
        destruct (decide (content c = v)).
        -- exists (k + 1)%nat. lia.
        -- exists k. lia.
      * unfold mismatchedPair.
        destruct (gameOverCheck_fields
                    (mkState (config s) (map (faceUp i) (cards s)) [a; i]
                       (matches s) (moves s + 1) (now s)
                       (Some (now s + 1000, a, i)%nat)
                       (gameOver s) (calls s))) as (_ & -> & _).
        cbn [cards].
        by rewrite matchedWith_map
          by (apply faceUp_matched || apply faceUp_content).
  - rewrite step_wait. unfold set_now, fireGameOver. cbn [cards].
    destruct (flipBack s) as [[[deadline a] b]|]; [|done].
    destruct (deadline <=? now s + dt)%nat; [|done].
    unfold turnedBack. cbn [cards].
    by rewrite matchedWith_map
      by (apply faceDown_matched || apply faceDown_content).
Qed.

(** X17.  At every moment of a session the matched cards that show a given
    symbol are even in number: cards are only ever matched two at a time,
    and the two show the same symbol. *)
Theorem memory_matched_in_pairs shuffle cfg evs v :
  Nat.Even (matchedWith v (cards (run (mount shuffle cfg) evs))).
Proof.
  apply (memory_session_invariant
           (fun s => Nat.Even (matchedWith v (cards s)))).
  - pose proof (matchedWith_le v (cards (mount shuffle cfg))) as Hle.
    pose proof (ok_matches _ (memory_mount_ok shuffle cfg)) as Hm.
    unfold matchedCards in Hm. rewrite mount_state in Hm, Hle |- *.
    cbn [cards matches] in *. exists 0%nat. lia.
  - intros s e. apply step_matchedWith.
Qed.

(** *** Clicks that are not taken *)

(** X18.  A click on a card that is matched, or that is already turned and
    awaiting its partner or its evaluation, changes nothing; neither does
    any click while two cards are turned. *)
Theorem memory_ignored_clicks shuffle cfg evs i :
  let s := run (mount shuffle cfg) evs in
  (exists c, c ∈ cards s /\ card_id c = i /\ isFlipped c = true)
  \/ length (flippedIds s) = 2%nat ->
  step s (Click i) = s.
Proof.
  intros s H. pose proof (memory_run_ok shuffle cfg evs) as Hok. fold s in Hok.
  rewrite step_click. destruct (accepted i s) eqn:Hacc; [|done].
  exfalso.
  destruct (accepted_spec i s Hacc) as ((c0 & Hfind & Hm) & Hlen & Hnew).
  destruct H as [(c & Hin & Hid & Hup)|H]; [|lia].
  pose proof (findCard_unique _ c (ids_NoDup s Hok) Hin) as Hu.
  rewrite Hid, Hfind in Hu. injection Hu as ->.
  pose proof (ok_faces s Hok) as Hfaces. rewrite Forall_forall in Hfaces.
  specialize (Hfaces c Hin). rewrite Hid, Hm, Hnew, Hup in Hfaces. done.
Qed.

Lemma memory_ignored_clicks_witness :
  let s := run (mount Scenario.backwards Scenario.config_two)
               [Click 0; Click 2; Click 1] in
  step s (Click 0) = s.
Proof.
  apply (memory_ignored_clicks Scenario.backwards Scenario.config_two
           [Click 0; Click 2; Click 1] 0).
  left. exists (mkCard 0 "b" true true).
  split; [|done]. vm_compute. apply list_elem_of_here.
Defined.

(** *** The reported score *)

(** X19.  A score that the Memory game reports, or has scheduled for a
    report, is a multiple of 20 between 0 and 980; it is at most
    1000 - 10 * n for a deck of n cards, when that is not negative. *)
Theorem memory_score_range shuffle cfg evs sc :
  let s := run (mount shuffle cfg) evs in
  sc ∈ calls s ++ (gameOver s).*2 ->
  0 <= sc <= 980
  /\ sc mod 20 = 0
  /\ sc <= Z.max 0 (1000 - 10 * Z.of_nat (length (cards s))).
Proof.
  intros s Hsc. pose proof (memory_run_ok shuffle cfg evs) as Hok.
  fold s in Hok. pose proof (ok_over s Hok) as Hover.
  pose proof (ok_moves s Hok) as Hmoves.
  destruct (won s) eqn:Hw.
  - assert (sc = finalScore s) as ->.
    { destruct Hover as [_ [(d & Hg & _ & Hc)|[Hg Hc]]];
        rewrite Hg, Hc in Hsc; cbn in Hsc;
        by apply list_elem_of_singleton in Hsc. }
    unfold won in Hw. apply andb_true_iff in Hw as [Hpos Hhalf].
    apply Nat.ltb_lt in Hpos. apply Z.eqb_eq in Hhalf.
    unfold finalScore.
    destruct (Z.max_spec 0 (1000 - moves s * 20)) as [[Hlt ->]|[Hge ->]].
    + split; [lia|]. split; [|lia].
      replace (1000 - moves s * 20) with ((50 - moves s) * 20) by lia.
      apply Z.mod_mul. lia.
    + split; [lia|]. split; [done|]. lia.
  - destruct Hover as [Hg Hc]. rewrite Hg, Hc in Hsc. by inversion Hsc.
Qed.

Lemma memory_score_range_witness :
  0 <= 940 <= 980
  /\ 940 mod 20 = 0
  /\ 940 <= Z.max 0 (1000 - 10 * Z.of_nat
        (length (cards (run (mount Scenario.backwards Scenario.config_two)
                            [Click 0; Click 1; Wait 1000; Click 0; Click 2;
                             Click 1; Click 3; Wait 1000])))).
Proof.
  apply (memory_score_range Scenario.backwards Scenario.config_two
           [Click 0; Click 1; Wait 1000; Click 0; Click 2;
            Click 1; Click 3; Wait 1000] 940).
  vm_compute. apply list_elem_of_here.
Defined.

(** *** Unmounting *)

(** X20.  Unmounting changes what happens to the cards, not what is
    reported.  After the component unmounts no cell changes any more,
    however long one waits: the cleanup of the match check has cancelled
    the mismatch timeout, so two turned cards that the mounted component
    would turn back at the deadline stay as they are.  The game-over
    timeout has no cleanup: the calls of [onGameOver] made, and the
    reports still scheduled, after any wait are exactly those of the
    component that stays mounted. *)
Theorem memory_unmount_keeps_report shuffle cfg evs dt :
  let s := run (mount shuffle cfg) evs in
  let u := wait dt (unmount s) in
  (cards u = cards s /\ flippedIds u = flippedIds s
   /\ matches u = matches s /\ moves u = moves s)
  /\ (calls u = calls (wait dt s) /\ gameOver u = gameOver (wait dt s))
  /\ (forall deadline a b,
        flipBack s = Some (deadline, a, b) ->
        (deadline <= now s + dt)%nat ->
        flippedIds (wait dt s) = []
        /\ cards (wait dt s) = map (faceDown a b) (cards s)
        /\ flippedIds u = [a; b]).
Proof.
  intros s u. pose proof (memory_run_ok shuffle cfg evs) as Hok.
  fold s in Hok.
  assert (Hu : u = set_now (now s + dt)
                     (fireGameOver (now s + dt) (set_flipBack None s))).
  { done. }
  assert (Hs : wait dt s = step s (Wait dt)) by done.
  rewrite Hs, step_wait, Hu. unfold set_now, fireGameOver, set_flipBack.
  cbn [cards flippedIds matches moves gameOver calls now].
  split; [done|]. split.
  - destruct (flipBack s) as [[[deadline a] b]|]; [|done].
    by destruct (deadline <=? now s + dt)%nat.
  - intros deadline a b Hfb Hdue. rewrite Hfb.
    destruct (pending_flipBack s deadline a b Hok Hfb) as (Hf & _).
    apply Nat.leb_le in Hdue. by rewrite Hdue.
Qed.

Lemma memory_unmount_keeps_report_witness :
  let s := run (mount Scenario.backwards Scenario.config_two)
               [Click 0; Click 1] in
  flippedIds (wait 1000 s) = []
  /\ cards (wait 1000 s) = map (faceDown 0 1) (cards s)
  /\ flippedIds (wait 1000 (unmount s)) = [0; 1]%nat.
Proof.
  intros s.
  destruct (memory_unmount_keeps_report Scenario.backwards
              Scenario.config_two [Click 0; Click 1] 1000)
    as (_ & _ & H).
  apply (H 1000%nat 0%nat 1%nat); by vm_compute.
Defined.

(** A won game that is unmounted before its report is due still makes
    the call. *)
Example unmounted_game_still_reports :
  let s := run (mount Scenario.backwards Scenario.config_single)
               [Click 0; Click 1] in
  calls (unmount s) = [] /\ calls (wait 1000 (unmount s)) = [980].
Proof. by vm_compute. Qed.

(** *** Rendering passes *)

(** X21.  The cascade of renders and effects that an update starts ends
    within three passes: giving [commit] more passes than that changes
    nothing. *)
Theorem memory_commit_settles k d s :
  commit (renderPasses + k) d s = commit renderPasses d s.
Proof. apply commit_enough. Qed.

End MemoryMore.

(** ** The service and the orchestrator: further properties *)

Module ServiceMore.
Import Service.

Lemma generate_failure gc jp mood :
  Failure gc jp mood ->
  generateGameForMood gc jp mood = Return (Conforming fallback).
Proof.
  unfold generateGameForMood, tryCatch, bind.
  intros [e Hcall | response Hcall Hfalsy | response text e Hcall Htext Hparse].
  - by rewrite Hcall.
  - by rewrite Hcall, Hfalsy.
  - rewrite Hcall, Htext. simpl.
    destruct (String.eqb text ""); [done|]. by rewrite Hparse.
Qed.

(** X22.  What [generateGameForMood] resolves with, in full: the fallback
    exactly when the call fails (it rejects, its text is missing or empty,
    or the text does not parse), and otherwise the value that [JSON.parse]
    returns for the text of the response to the one request, unchanged:
    nothing of it is validated or filled in. *)
Theorem generate_cases gc jp mood value :
  generateGameForMood gc jp mood = Return value
  <-> (Failure gc jp mood /\ value = Conforming fallback)
      \/ (exists response text,
             gc (request mood) = Return response
             /\ response_text response = Some text
             /\ text <> ""
             /\ jp text = Return value).
Proof.
  split.
  - unfold generateGameForMood, tryCatch, bind. cbv zeta.
    destruct (gc (request mood)) as [response|e] eqn:Hcall.
    + destruct (falsy (response_text response)) eqn:Hfalsy.
      * intros [= <-]. left. split; [|done]. by eapply no_text.
      * destruct (response_text response) as [text|] eqn:Htext; [|done].
        cbn [falsy] in Hfalsy. apply String.eqb_neq in Hfalsy.
        simpl. destruct (jp text) as [c|e] eqn:Hparse.
        -- intros [= <-]. right. exists response, text. auto.
        -- intros [= <-]. left. split; [|done]. by eapply unparseable.
    + intros [= <-]. left. split; [|done]. by eapply call_rejected.
  - intros [[Hfail ->]|(response & text & Hcall & Htext & Hne & Hparse)].
    + by apply generate_failure.
    + by eapply ServiceFacts.generate_parsed.
Qed.

End ServiceMore.

Module AppFacts.
Import App AppInv.

(** *** The playing screen always has a configuration *)

Lemma step_configured s e :
  truthyAnswer e -> configured s -> configured (step s e).
Proof.
  unfold configured, truthyAnswer.
  destruct e as [mood|[value|error]|score| |typed];
    cbn [step handleMoodSelect_begin handleMoodSelect_resume handleGameOver
         resetApp setCustomMood appState gameConfig]; done.
Qed.

Lemma run_snoc s evs e : run s (evs ++ [e]) = step (run s evs) e.
Proof. unfold run. by rewrite foldl_app. Qed.

(** X23.  The playing screen renders nothing ([return null]) only after
    the service has resolved with a falsy value: in a session in which
    every answer of the service is truthy (a configuration, the
    fallback) that branch of [renderContent] is never taken, whatever the
    order of mood selections, answers, game reports, resets and typing.
    It is taken when the service resolves with [null], as it does for
    the response text null, after any session. *)
Theorem playing_has_config evs :
  (Forall truthyAnswer evs -> renderContent (run initial evs) <> NullView)
  /\ (forall mood,
        renderContent
          (run initial
               (evs ++ [SelectMood mood;
                        Generated
                          (Service.generateGameForMood
                             Scenario.answering_null Scenario.parsing_null
                             mood)]))
        = NullView).
Proof.
  split.
  - intros Htruthy.
    assert (Hinv : configured (run initial evs)).
    { induction evs as [|e evs IH] using rev_ind; [done|].
      apply Forall_app in Htruthy as [Hevs He].
      apply Forall_cons in He as [He _].
      rewrite run_snoc. apply step_configured; [done | by apply IH]. }
    unfold renderContent, configured in *.
    destruct (appState (run initial evs)); try done.
    rewrite Hinv by done. by destruct (gameConfig (run initial evs)).
  - intros mood. unfold run. by rewrite foldl_app.
Qed.

Lemma playing_has_config_witness :
  renderContent
    (run initial
         [TypeMood "Overwhelmed"; SelectMood "Overwhelmed";
          Generated (Service.Return (Service.Conforming Service.fallback));
          GameOver 120; SelectMood "Overwhelmed";
          Generated (Service.Return (Service.Conforming Service.fallback))])
  <> NullView.
Proof.
  destruct (playing_has_config
              [TypeMood "Overwhelmed"; SelectMood "Overwhelmed";
               Generated
                 (Service.Return (Service.Conforming Service.fallback));
               GameOver 120; SelectMood "Overwhelmed";
               Generated
                 (Service.Return (Service.Conforming Service.fallback))])
    as [H _].
  apply H. by repeat constructor.
Defined.

(** *** Selecting a mood *)


(** X25.  When the call of the service fails, the game that is played is
    the fallback: the clicker Mood Popper. *)
Theorem mood_select_falls_back gc jp mood s :
  Service.Failure gc jp mood ->
  renderContent (handleMoodSelect gc jp mood s)
  = PlayingView Service.fallback clicker.
Proof.
  intros Hfail. unfold handleMoodSelect.
  by rewrite (ServiceMore.generate_failure gc jp mood Hfail).
Qed.

Lemma mood_select_falls_back_witness :
  renderContent
    (handleMoodSelect Scenario.offline Scenario.rejecting "Angry" initial)
  = PlayingView Service.fallback clicker.
Proof.
  apply (mood_select_falls_back Scenario.offline Scenario.rejecting "Angry"
           initial).
  by apply (Service.call_rejected Scenario.offline Scenario.rejecting
              "Angry" "fetch failed").
Defined.

(** *** The current mood *)

Lemma lastSelected_snoc evs e :
  lastSelected (evs ++ [e])
  = match e with
    | SelectMood mood => Some mood
    | _ => lastSelected evs
    end.
Proof.
  induction evs as [|e' evs IH]; [by destruct e|].
  cbn [app lastSelected]. rewrite IH.
  by destruct e.
Qed.

(** X26.  The current mood is the one selected last ([resetApp] does not
    clear it, and neither does a report or the answer of the service), so
    Play Again asks the service for the mood of the session that just
    ended. *)
Theorem current_mood_is_last_selected evs :
  currentMood (run initial evs) = default "" (lastSelected evs).
Proof.
  induction evs as [|e evs IH] using rev_ind; [done|].
  rewrite run_snoc, lastSelected_snoc.
  destruct e as [mood|[config|error]|score| |value];
    cbn [step handleMoodSelect_begin handleMoodSelect_resume handleGameOver
         resetApp setCustomMood currentMood]; done.
Qed.

End AppFacts.

(** ** Picking an asset *)

Module AssetFacts.

Lemma Qfloor_range (x : Q) (n : Z) :
  (0 <= x)%Q -> (x < inject_Z n)%Q -> 0 <= Qfloor x < n.
Proof.
  intros H0 Hn.
  pose proof (Qfloor_le x) as Hle. pose proof (Qlt_floor x) as Hlt.
  split.
  - assert (inject_Z 0 < inject_Z (Qfloor x + 1))%Q as H.
    { eapply Qle_lt_trans; [exact H0 | exact Hlt]. }
    rewrite <- Zlt_Qlt in H. lia.
  - rewrite Zlt_Qlt. eapply Qle_lt_trans; [exact Hle | exact Hn].
Qed.

(** X27.  The asset of a new target or item,
    [assets[Math.floor(Math.random() * assets.length)]]: for a draw in
    [0, 1) and a list that is not empty it is an element of the list;
    for an empty list it is [undefined], for every draw, and nothing is
    raised. *)
Theorem pickAsset_in_range (config : GameConfig) (u : Q) :
  (0 <= u)%Q -> (u < 1)%Q ->
  match assets config with
  | [] => pickAsset config u = None
  | _ :: _ => exists a, pickAsset config u = Some a /\ a ∈ assets config
  end.
Proof.
  intros H0 H1. unfold pickAsset, at_floor.
  destruct (assets config) as [|a0 l] eqn:Ha.
  - cbn [length]. change (inject_Z (Z.of_nat 0)) with 0%Q.
    assert (u * 0 == 0)%Q as -> by ring. done.
  - set (n := Z.of_nat (length (a0 :: l))).
    assert (0 < n) as Hn by (unfold n; cbn [length]; lia).
    assert (0 < inject_Z n)%Q as Hn'.
    { change 0%Q with (inject_Z 0). by rewrite <- Zlt_Qlt. }
    destruct (Qfloor_range (u * inject_Z n) n) as [Hf0 Hfn].
    + apply Qmult_le_0_compat; [done | by apply Qlt_le_weak].
    + apply Qlt_le_trans with (1 * inject_Z n)%Q;
        [by apply Qmult_lt_compat_r|].
      rewrite Qmult_1_l. apply Qle_refl.
    + destruct (Z.ltb_spec (Qfloor (u * inject_Z n)) 0) as [?|_]; [lia|].
      destruct (lookup_lt_is_Some_2 (a0 :: l)
                  (Z.to_nat (Qfloor (u * inject_Z n)))) as [a Hlook].
      { subst n. lia. }
      exists a. split; [done|]. by eapply list_elem_of_lookup_2.
Qed.

Lemma pickAsset_in_range_witness :
  exists a,
    pickAsset Service.fallback (7 # 10) = Some a
    /\ a ∈ assets Service.fallback.
Proof.
  apply (pickAsset_in_range Service.fallback (7 # 10)); by vm_compute.
Defined.

End AssetFacts.
